(** * MicroCosmos-3D: the GLV engine, the sampling loop and the particle mapper

    A shallow embedding of [src/app/page.tsx] (the first version of the page)
    and of the later "virtual lab" version of the same page (which adds the
    history chart and the scenario buttons).

    JavaScript numbers are IEEE 754 binary64 values; they are modelled by the
    primitive floats of Rocq, whose [+], [*] and comparisons are the same
    operations, and the numbers an instanced mesh keeps are their binary32
    roundings.  The engine is written once over a small arithmetic
    signature, so that the same program text can also be read over exact
    rational arithmetic (the mathematical Euler scheme, without rounding);
    the program runs in binary64, and the exact reading only serves to tell
    what rounding changes.

    Arrays are lists.  Reading past the end of an array yields [undefined],
    which every arithmetic operator turns into NaN; reading a property of
    [undefined] throws a TypeError, modelled by [None]. *)

From Stdlib Require Import Floats QArith Qround Lia Lqa.
From stdpp Require Import gmap list strings.

Set Warnings "-inexact-float".
Local Open Scope nat_scope.

(** ** Arithmetic signature *)

Class Arith (num : Type) := {
  lit_0 : num;                       (* the literal [0] *)
  lit_0_1 : num;                     (* the literal [0.1] *)
  add : num -> num -> num;           (* [a + b] on numbers *)
  mul : num -> num -> num;           (* [a * b] *)
  Math_max : num -> num -> num;      (* [Math.max(a, b)] *)
  js_nan : num                       (* ToNumber(undefined) *)
}.

(** [type GLVParams = { r: number[]; A: number[][]; dt: number }] *)
Record GLVParams (num : Type) := {
  r : list num;
  A : list (list num);
  dt : num
}.
Arguments r {num} _.
Arguments A {num} _.
Arguments dt {num} _.

Definition loc := nat.

Section Engine.
Context {num : Type} {arith : Arith num}.

(** [l[i]] used as an operand: [undefined] reads as NaN. *)
Definition js_get (l : list num) (i : nat) : num := nth i l js_nan.

(** [l[i] = v].  Inside the array the slot is overwritten; at or past the end
    JavaScript extends the array, the skipped slots being holes (which read
    as [undefined]). *)
Definition js_set (l : list num) (i : nat) (v : num) : list num :=
  if i <? length l then <[i:=v]> l
  else l ++ repeat js_nan (i - length l) ++ [v].

(** [let interaction = 0; for (j = 0; j < 3; j++) interaction += A[i][j] * pops[j]] *)
Definition interaction_sum (row pops : list num) : num :=
  fold_left (fun interaction j => add interaction (mul (js_get row j) (js_get pops j)))
            (seq 0 3) lit_0.

(** [pops[i] + dN * dt] with [dN = pops[i] * (r[i] + interaction)]. *)
Definition euler_candidate (pops : list num) (params : GLVParams num)
    (row : list num) (i : nat) : num :=
  let interaction := interaction_sum row pops in
  let dN := mul (js_get pops i) (add (js_get (r params) i) interaction) in
  add (js_get pops i) (mul dN (dt params)).

(** The value stored in [newPops[i]]. *)
Definition species_step (pops : list num) (params : GLVParams num)
    (row : list num) (i : nat) : num :=
  Math_max lit_0_1 (euler_candidate pops params row i).

(** One iteration of the outer loop; [A[i]] missing makes [A[i][0]] throw. *)
Definition update_species (pops : list num) (params : GLVParams num)
    (newPops : list num) (i : nat) : option (list num) :=
  match A params !! i with
  | None => None
  | Some row => Some (js_set newPops i (species_step pops params row i))
  end.

(** The three writes of the loop, one after the other. *)
Definition three_writes (l : list num) (s0 s1 s2 : num) : list num :=
  js_set (js_set (js_set l 0 s0) 1 s1) 2 s2.

(** The outer loop threads [newPops]; after an exception nothing more runs. *)
Definition loop_step (pops : list num) (params : GLVParams num)
    (acc : option (list num)) (i : nat) : option (list num) :=
  match acc with
  | None => None
  | Some newPops => update_species pops params newPops i
  end.

(** [updatePopulations(pops, params)]: [newPops] starts as a copy of [pops]. *)
Definition updatePopulations (pops : list num) (params : GLVParams num)
    : option (list num) :=
  fold_left (loop_step pops params) (seq 0 3) (Some pops).

(** Repeated stepping with fixed parameters. *)
Fixpoint iterate (n : nat) (pops : list num) (params : GLVParams num)
    : option (list num) :=
  match n with
  | O => Some pops
  | S k => match updatePopulations pops params with
           | None => None
           | Some next => iterate k next params
           end
  end.

(** *** The same function over a store of arrays

    [pops] is a reference; [newPops = [...pops]] allocates a fresh array, and
    every read of [pops[j]] and write of [newPops[i]] goes through the store. *)

Definition heap_array (h : gmap loc (list num)) (a : loc) : list num :=
  default [] (h !! a).

Definition alloc (h : gmap loc (list num)) (l : list num)
    : loc * gmap loc (list num) :=
  let a := fresh (dom h) in (a, <[a:=l]> h).

Definition update_species_ref (pops newPops : loc) (params : GLVParams num)
    (h : gmap loc (list num)) (i : nat) : option unit * gmap loc (list num) :=
  match A params !! i with
  | None => (None, h)
  | Some row =>
      let v := species_step (heap_array h pops) params row i in
      (Some tt, <[newPops := js_set (heap_array h newPops) i v]> h)
  end.

Definition loop_step_ref (pops newPops : loc) (params : GLVParams num)
    (acc : option unit * gmap loc (list num)) (i : nat)
    : option unit * gmap loc (list num) :=
  match acc with
  | (None, hi) => (None, hi)
  | (Some _, hi) => update_species_ref pops newPops params hi i
  end.

Definition updatePopulations_ref (pops : loc) (params : GLVParams num)
    (h : gmap loc (list num)) : option loc * gmap loc (list num) :=
  let '(newPops, h0) := alloc h (heap_array h pops) in
  let '(res, h') := fold_left (loop_step_ref pops newPops params) (seq 0 3) (Some tt, h0) in
  (match res with Some _ => Some newPops | None => None end, h').

End Engine.

(** ** The two readings of numbers *)

(** [Math.max(a, b)] on binary64: NaN if either argument is NaN, [+0] above
    [-0], otherwise the larger argument. *)
Definition f_max (a b : float) : float :=
  if (is_nan a || is_nan b)%bool then nan
  else match classify a, classify b with
       | NZero, PZero => b
       | _, _ => if (a <? b)%float then b else a
       end.

#[global] Instance binary64 : Arith float := {|
  lit_0 := 0%float;
  lit_0_1 := 0.1%float;
  add := PrimFloat.add;
  mul := PrimFloat.mul;
  Math_max := f_max;
  js_nan := nan
|}.

(** Exact reading: a number is a rational or NaN ([None]); no rounding, no
    overflow, no infinities, no signed zero.  The program never computes in
    this arithmetic; it is the one the formulas of the Euler scheme are
    written in. *)
Definition q_add (a b : option Q) : option Q :=
  match a, b with Some x, Some y => Some (x + y)%Q | _, _ => None end.

Definition q_mul (a b : option Q) : option Q :=
  match a, b with Some x, Some y => Some (x * y)%Q | _, _ => None end.

Definition q_max (a b : option Q) : option Q :=
  match a, b with
  | Some x, Some y => Some (if Qle_bool y x then x else y)
  | _, _ => None
  end.

#[global] Instance exact : Arith (option Q) := {|
  lit_0 := Some 0%Q;
  lit_0_1 := Some (1 # 10)%Q;
  add := q_add;
  mul := q_mul;
  Math_max := q_max;
  js_nan := None
|}.

Definition exact_params (p : GLVParams Q) : GLVParams (option Q) :=
  {| r := map Some (r p); A := map (map Some) (A p); dt := Some (dt p) |}.

(** Comparisons on binary64, as propositions. *)
Definition f_le (a b : float) : Prop := (a <=? b)%float = true.
Definition f_lt (a b : float) : Prop := (a <? b)%float = true.

(** ** The page state and its two commands *)

(** [{ name: '', A: next[0], B: next[1], C: next[2] }]; a missing component
    is stored as [undefined] ([None]). *)
Module Entry.
Record t := mk { name : string; A : option float; B : option float; C : option float }.
End Entry.

(** [useState([1.0, 1.0, 1.0])], [useState([])], [useState("Default ...")]
    and the [params] ref. *)
Record AppState := {
  pops : list float;
  history : list Entry.t;
  explanation : string;
  params : GLVParams float
}.

Definition initial_params : GLVParams float := {|
  r := [0.5; 0.3; 0.4]%float;
  A := [[-0.1; 0.5; -0.2]; [-0.5; -0.1; 0.0]; [-0.1; -0.2; -0.1]]%float;
  dt := 0.05%float
|}.

Definition initial_state : AppState := {|
  pops := [1.0; 1.0; 1.0]%float;
  history := [];
  explanation := "Default balanced ecosystem.";
  params := initial_params
|}.

(** [l.slice(start)] with one argument: a negative [start] counts from the
    end, and both directions saturate at the array bounds. *)
Definition Array_slice {T : Type} (start : Z) (l : list T) : list T :=
  let len := Z.of_nat (length l) in
  let k := if (start <? 0)%Z then Z.max (len + start) 0 else Z.min start len in
  drop (Z.to_nat k) l.

Definition history_entry (next : list float) : Entry.t :=
  Entry.mk "" (next !! 0) (next !! 1) (next !! 2).

(** The [setHistory] updater. *)
Definition push_history (prev : list Entry.t) (next : list float) : list Entry.t :=
  let newData := prev ++ [history_entry next] in
  Array_slice (-50) newData.

(** One firing of the 100ms interval: the [setPops] updater with the nested
    [setHistory].  An exception leaves the state as it was. *)
Definition tick (st : AppState) : option AppState :=
  match updatePopulations (pops st) (params st) with
  | None => None
  | Some next =>
      Some {| pops := next;
              history := push_history (history st) next;
              explanation := explanation st;
              params := params st |}
  end.

Fixpoint ticks (n : nat) (st : AppState) : option AppState :=
  match n with
  | O => Some st
  | S k => match tick st with
           | None => None
           | Some st' => ticks k st'
           end
  end.

(** The populations published by the first [n] firings, oldest first. *)
Fixpoint samples (n : nat) (v : list float) (p : GLVParams float) : list (list float) :=
  match n with
  | O => []
  | S k => match updatePopulations v p with
           | None => []
           | Some next => next :: samples k next p
           end
  end.

Definition set_scenario (rates : list float) (text : string) (st : AppState) : AppState :=
  {| pops := pops st;
     history := history st;
     explanation := text;
     params := {| r := rates; A := A (params st); dt := dt (params st) |} |}.

(** [applyScenario(type)].  [Some st'] is normal completion with the new
    state; [None] would be an exception reaching the caller. *)
Definition applyScenario (type : string) (st : AppState) : option AppState :=
  if String.eqb type "balance" then
    Some (set_scenario [0.5; 0.3; 0.4]%float
      "Stable Equilibrium: Predator and Prey populations oscillate in harmony." st)
  else if String.eqb type "explosion" then
    Some (set_scenario [0.8; 1.5; 0.1]%float
      "Population Explosion: High growth rate leads to chaotic spikes." st)
  else if String.eqb type "extinction" then
    Some (set_scenario [-0.2; -0.1; -0.1]%float
      "Mass Extinction: Harsh conditions cause all populations to collapse." st)
  else Some st.

(** The tags the buttons send. *)
Definition scenario_tags : list string := ["balance"; "explosion"; "extinction"].

(** ** The particle ensemble and the per-frame mapping *)

Module Particle.
Record t := mk { x : float; y : float; z : float; species : nat }.
End Particle.

Definition Vector3 : Type := float * float * float.

(** The matrix that [updateMatrix] composes from the position and the scale of
    an object.  The quaternion of [dummy] is never written, so it is the
    identity in every matrix and is left out: the translation column holds
    the position and the diagonal holds the scale. *)
Record Matrix4 := { m_position : Vector3; m_scale : Vector3 }.

Record Object3D := { position : Vector3; scale : Vector3; matrix : Matrix4 }.

(** The argument of [new THREE.Color(...)]. *)
Inductive Color := Hex (s : string) | NoArgument.

(** An instanced mesh: one matrix and one colour slot per instance; a colour
    slot is empty until [setColorAt] fills it.  The matrices live in a
    [Float32Array], so every number held in a matrix slot is a binary32
    value. *)
Record InstancedMesh := {
  instanceMatrix : list Matrix4;
  instanceColor : list (option Color)
}.

(** What one particle is mapped to. *)
Record Transform := { t_position : Vector3; t_scale : float; t_color : option Color }.

Definition Math_PI : float := 3.141592653589793%float.

Definition position_set (d : Object3D) (v : Vector3) : Object3D :=
  {| position := v; scale := scale d; matrix := matrix d |}.

Definition scale_set (d : Object3D) (v : Vector3) : Object3D :=
  {| position := position d; scale := v; matrix := matrix d |}.

Definition updateMatrix (d : Object3D) : Object3D :=
  {| position := position d; scale := scale d;
     matrix := {| m_position := position d; m_scale := scale d |} |}.

(** [Math.fround(x)]: the binary32 number nearest to [x], ties to even, read
    back as a binary64 number.  Magnitudes past the binary32 range become
    infinite, tiny ones become a zero of the same sign; infinities, zeros and
    NaN are kept.  This is what a store into a [Float32Array] keeps. *)
Definition Math_fround (x : float) : float :=
  match Prim2SF x with
  | S754_finite s m e => SF2Prim (binary_round 24 128 s m e)
  | _ => x
  end.

Definition Vector3_fround (v : Vector3) : Vector3 :=
  (Math_fround v.1.1, Math_fround v.1.2, Math_fround v.2).

(** [matrix.toArray(instanceMatrix.array, 16 * i)]: the elements of a matrix
    are binary64 numbers, the instance buffer is a [Float32Array]. *)
Definition Float32_store (m : Matrix4) : Matrix4 :=
  {| m_position := Vector3_fround (m_position m);
     m_scale := Vector3_fround (m_scale m) |}.

(** Writes land in fixed-size typed arrays: an index outside them is ignored,
    and each matrix element is rounded to binary32 by the store. *)
Definition setMatrixAt (i : nat) (m : Matrix4) (mesh : InstancedMesh) : InstancedMesh :=
  {| instanceMatrix := <[i:=Float32_store m]> (instanceMatrix mesh);
     instanceColor := instanceColor mesh |}.

Definition setColorAt (i : nat) (c : Color) (mesh : InstancedMesh) : InstancedMesh :=
  {| instanceMatrix := instanceMatrix mesh;
     instanceColor := <[i:=Some c]> (instanceColor mesh) |}.

(** [l.forEach((x, i) => ...)] threading the state the callback mutates. *)
Fixpoint forEach {T St : Type} (f : St -> T -> nat -> St) (l : list T) (i : nat) (s : St) : St :=
  match l with
  | [] => s
  | x :: rest => forEach f rest (S i) (f s x i)
  end.

Section Colony.
Variables Math_sin Math_cos Math_acos : float -> float.
(** [Math_random n] is the value of the [n]-th call of [Math.random()]. *)
Variable Math_random : nat -> float.

(** One iteration of the initialisation loop; [draws] calls of
    [Math.random()] have been made before it. *)
Definition make_particle (i draws : nat) : Particle.t :=
  let theta := (Math_random draws * Math_PI * 2)%float in
  let phi := Math_acos ((Math_random (draws + 1) * 2) - 1)%float in
  let radius := (10 + Math_random (draws + 2) * 10)%float in
  {| Particle.x := (radius * Math_sin phi * Math_cos theta)%float;
     Particle.y := (radius * Math_sin phi * Math_sin theta)%float;
     Particle.z := (radius * Math_cos phi)%float;
     Particle.species := i mod 3 |}.

(** [for (let i = 0; i < count; i++) temp.push({...})] *)
Definition particles (count : nat) : list Particle.t :=
  snd (fold_left (fun st i => (fst st + 3, snd st ++ [make_particle i (fst st)]))
                 (seq 0 count) (0, [])).

Definition hover (p : Particle.t) (time : float) : Vector3 :=
  ((Particle.x p + Math_sin (time + Particle.x p) * 0.5)%float,
   (Particle.y p + Math_cos (time + Particle.y p) * 0.5)%float,
   Particle.z p).

(** The three [if (species === n) mesh.setColorAt(...)] of [page.tsx]: no
    colour is written for another species. *)
Definition color_page (species : nat) : option Color :=
  if species =? 0 then Some (Hex "#ff0055")
  else if species =? 1 then Some (Hex "#00cc88")
  else if species =? 2 then Some (Hex "#22ccff")
  else None.

(** [new THREE.Color(colors[p.species])] of the lab version. *)
Definition colors : list string := ["#ff0055"; "#00cc88"; "#22ccff"].

Definition color_lab (species : nat) : option Color :=
  Some (match colors !! species with Some s => Hex s | None => NoArgument end).

Definition computeTransform_page (p : Particle.t) (populations : list float)
    (time : float) : Transform :=
  {| t_position := hover p time;
     t_scale := mul (js_get populations (Particle.species p)) 0.5%float;
     t_color := color_page (Particle.species p) |}.

Definition computeTransform_lab (p : Particle.t) (populations : list float)
    (time : float) : Transform :=
  {| t_position := hover p time;
     t_scale := mul (js_get populations (Particle.species p)) 0.4%float;
     t_color := color_lab (Particle.species p) |}.

(** The part of the callback common to both versions: the shared [dummy] is
    overwritten, its matrix recomposed and copied into slot [i]; then the
    colour, if any, is written. *)
Definition render (t : Transform) (i : nat) (st : Object3D * InstancedMesh)
    : Object3D * InstancedMesh :=
  let d1 := position_set (fst st) (t_position t) in
  let d2 := scale_set d1 (t_scale t, t_scale t, t_scale t) in
  let d3 := updateMatrix d2 in
  let mesh1 := setMatrixAt i (matrix d3) (snd st) in
  (d3, match t_color t with Some c => setColorAt i c mesh1 | None => mesh1 end).

(** [particles.forEach((p, i) => { ... })] with the transform of particle
    [p] at index [i] given by [f]. *)
Definition frame_loop (f : Particle.t -> nat -> Transform) (ps : list Particle.t)
    (i0 : nat) (st : Object3D * InstancedMesh) : Object3D * InstancedMesh :=
  forEach (fun st p i => render (f p i) i st) ps i0 st.

(** [useFrame] of the lab version: the clock is read once per frame. *)
Definition useFrame_lab (time : float) (populations : list float)
    (ps : list Particle.t) (dummy : Object3D) (meshRef : option InstancedMesh)
    : Object3D * option InstancedMesh :=
  match meshRef with
  | None => (dummy, None)
  | Some mesh =>
      let st := frame_loop (fun p _ => computeTransform_lab p populations time)
                           ps 0 (dummy, mesh) in
      (fst st, Some (snd st))
  end.

(** [useFrame] of [page.tsx]: the clock is read inside the callback, once
    per particle; [clock i] is the reading made for particle [i]. *)
Definition useFrame_page (clock : nat -> float) (populations : list float)
    (ps : list Particle.t) (dummy : Object3D) (meshRef : option InstancedMesh)
    : Object3D * option InstancedMesh :=
  match meshRef with
  | None => (dummy, None)
  | Some mesh =>
      let st := frame_loop (fun p i => computeTransform_page p populations (clock i))
                           ps 0 (dummy, mesh) in
      (fst st, Some (snd st))
  end.

End Colony.

(** How many particles of an ensemble belong to species [s]. *)
Definition species_count (s : nat) (ps : list Particle.t) : nat :=
  length (filter (fun p => Particle.species p = s) ps).

(** Stand-ins for the engine's [Math.random], [Math.sin], ... when a concrete
    ensemble is needed. *)
Definition sample_random (n : nat) : float :=
  match n mod 3 with 0 => 0.25 | 1 => 0.5 | _ => 0.75 end%float.
Definition sample_fn (x : float) : float := (x / (1 + abs x))%float.


(** ** Concrete inputs used in the examples below *)

(** Finite parameters whose products overflow in opposite directions. *)
Definition overflow_params : GLVParams float := {|
  r := [0.5; 0.3; 0.4]%float;
  A := [[1e200; -1e200; 0.0]; [-0.5; -0.1; 0.0]; [-0.1; -0.2; -0.1]]%float;
  dt := 0.05%float
|}.

Definition overflow_pops : list float := [1e200; 1e200; 1.0]%float.

(** Strictly negative growth rates and interaction terms, all tiny. *)
Definition slow_params : GLVParams float := {|
  r := [-1e-17; -1e-17; -1e-17]%float;
  A := [[-1e-17; -1e-17; -1e-17]; [-1e-17; -1e-17; -1e-17];
        [-1e-17; -1e-17; -1e-17]]%float;
  dt := 0.05%float
|}.

Definition floor_vector : list float := [0.1; 0.1; 0.1]%float.

(** The initial parameters, read as exact decimals. *)
Definition initial_params_exact : GLVParams Q := {|
  r := [5 # 10; 3 # 10; 4 # 10]%Q;
  A := [[-(1 # 10); 5 # 10; -(2 # 10)]; [-(5 # 10); -(1 # 10); 0];
        [-(1 # 10); -(2 # 10); -(1 # 10)]]%Q;
  dt := (5 # 100)%Q
|}.

(** The array a call hands back, read from the store it leaves. *)
Definition returned_array {num : Type} (res : option loc * gmap loc (list num))
    : option (list num) :=
  match fst res with
  | Some l => snd res !! l
  | None => None
  end.

(** Two stores holding the initial population at different places. *)
Definition store1 : gmap loc (list float) := {[ 0 := [1.0; 1.0; 1.0]%float ]}.
Definition store2 : gmap loc (list float) :=
  {[ 4 := [1.0; 1.0; 1.0]%float; 7 := [] ]}.

(** The [k] most recent elements of a list that grows at its end. *)
Definition last_n {T : Type} (k : nat) (l : list T) : list T :=
  drop (length l - k) l.

(** The matrix composed for a transform: uniform scale. *)
Definition matrix_of (t : Transform) : Matrix4 :=
  {| m_position := t_position t; m_scale := (t_scale t, t_scale t, t_scale t) |}.

(** Slot [i] of the mesh a frame leaves behind. *)
Definition slot (res : Object3D * option InstancedMesh) (i : nat)
    : option (Matrix4 * option Color) :=
  match snd res with
  | None => None
  | Some mesh =>
      match instanceMatrix mesh !! i, instanceColor mesh !! i with
      | Some m, Some c => Some (m, c)
      | _, _ => None
      end
  end.

(** A mesh of [n] instances before the first frame, and two states of the
    shared [dummy]. *)
Definition unit_object : Object3D :=
  {| position := (0, 0, 0)%float; scale := (1, 1, 1)%float;
     matrix := {| m_position := (0, 0, 0)%float; m_scale := (1, 1, 1)%float |} |}.

Definition used_object : Object3D :=
  {| position := (3, -4, 5)%float; scale := (2, 2, 2)%float;
     matrix := {| m_position := (7, 7, 7)%float; m_scale := (9, 9, 9)%float |} |}.

Definition blank_mesh (n : nat) : InstancedMesh :=
  {| instanceMatrix := repeat (matrix unit_object) n; instanceColor := repeat None n |}.

Definition painted_mesh (n : nat) : InstancedMesh :=
  {| instanceMatrix := repeat (matrix used_object) n;
     instanceColor := repeat (Some (Hex "#ffffff")) n |}.

(** A stand-in for [Math.cos], and a three-particle ensemble away from the
    origin. *)
Definition sample_cos (x : float) : float := (1 / (1 + x * x))%float.

Definition demo_particles : list Particle.t :=
  [ Particle.mk 1.5 (-2.0) 3.0 0%nat;
    Particle.mk (-4.0) 0.5 6.0 1%nat;
    Particle.mk 7.25 8.0 (-9.0) 2%nat ]%float.

Definition demo_clock (i : nat) : float :=
  match i with 0 => 2.5 | 1 => 2.5625 | _ => 2.625 end%float.

(** ** The collapse regime, in exact arithmetic *)

(** Three strictly negative growth rates, a 3x3 matrix without positive
    entries, a positive time step. *)
Definition collapse_params (p : GLVParams Q) : Prop :=
  length (r p) = 3 /\ Forall (fun x => x < 0)%Q (r p) /\
  length (A p) = 3 /\
  Forall (fun row => length row = 3 /\ Forall (fun a => a <= 0)%Q row) (A p) /\
  (0 < dt p)%Q.

Definition above_floor (v : list Q) : Prop :=
  length v = 3 /\ Forall (fun x => 1 # 10 <= x)%Q v.

(** Steps after which a component starting at [vi] with growth rate [ri] has
    certainly reached the floor: each step takes at least [0.1 * -ri * dt]
    off it. *)
Definition steps_to_floor (ri d vi : Q) : nat :=
  Z.to_nat (Qceiling ((vi - (1 # 10)) / ((1 # 10) * - ri * d))).

Definition collapse_bound (p : GLVParams Q) (v : list Q) : nat :=
  list_max (zip_with (fun ri vi => steps_to_floor ri (dt p) vi) (r p) v).

(** [Math.max(0.1, c)] and the Euler candidate on rationals. *)
Definition clamp (c : Q) : Q := if Qle_bool c (1 # 10) then 1 # 10 else c.

Definition euler_Q (vi ri a0 a1 a2 v0 v1 v2 d : Q) : Q :=
  (vi + vi * (ri + (0 + a0 * v0 + a1 * v1 + a2 * v2)) * d)%Q.

(** Component [wi] lies between the floor and its start [vi], and is at the
    floor or has lost at least [n] decrements. *)
Definition within (n : nat) (vi ri d wi : Q) : Prop :=
  (1 # 10 <= wi /\ wi <= vi /\
   (wi == 1 # 10 \/ wi <= vi + inject_Z (Z.of_nat n) * ((1 # 10) * ri * d)))%Q.

(** A collapse regime. *)
Definition harsh_params : GLVParams Q := {|
  r := [-(2 # 10); -(1 # 10); -(1 # 10)]%Q;
  A := [[-(1 # 10); 0; -(2 # 10)]; [-(5 # 10); -(1 # 10); 0];
        [-(1 # 10); -(2 # 10); -(1 # 10)]]%Q;
  dt := (5 # 100)%Q
|}.

(** The same regime in binary64, and a check that a run of [n] steps never
    raises a component. *)
Definition harsh_params_binary64 : GLVParams float := {|
  r := [-0.2; -0.1; -0.1]%float;
  A := [[-0.1; 0.0; -0.2]; [-0.5; -0.1; 0.0]; [-0.1; -0.2; -0.1]]%float;
  dt := 0.05%float
|}.

Definition all_leb (w v : list float) : bool :=
  (length w =? length v) && forallb (fun wv => (fst wv <=? snd wv)%float) (combine w v).

Fixpoint non_increasing_run (n : nat) (v : list float) (p : GLVParams float) : bool :=
  match n with
  | O => true
  | S k => match updatePopulations v p with
           | None => false
           | Some next => all_leb next v && non_increasing_run k next p
           end
  end.

(** ** The collapse regime, in binary64 *)

(** Shapes of binary64 numbers: zero, negative or negative infinite; and
    positive finite. *)
Definition sf_nonpos (x : spec_float) : Prop :=
  match x with
  | S754_zero _ => True
  | S754_infinity s | S754_finite s _ _ => s = true
  | S754_nan => False
  end.

Definition sf_posfin (x : spec_float) : Prop :=
  match x with
  | S754_finite false _ _ => True
  | _ => False
  end.

Definition nonpos (x : float) : Prop := sf_nonpos (Prim2SF x).
Definition posfin (x : float) : Prop := sf_posfin (Prim2SF x).

(** The sign a rounded result carries. *)
Definition has_sign (s : bool) (x : spec_float) : Prop :=
  match x with
  | S754_zero s' | S754_infinity s' | S754_finite s' _ _ => s' = s
  | S754_nan => False
  end.

(** A mantissa with its round and sticky bits, shifted right by [j] places. *)
Definition inexact (mrs : shr_record) : bool := shr_r mrs || shr_s mrs.

Definition shifted (j : Z) (a b : shr_record) : Prop :=
  (0 <= shr_m b)%Z /\ shr_m b = (shr_m a / 2 ^ j)%Z /\
  (inexact b = true -> inexact a = true \/ (shr_m a mod 2 ^ j)%Z <> 0%Z).

(** Three strictly negative growth rates, a 3x3 matrix without positive
    entries, a positive finite time step. *)
Definition collapse_regime (p : GLVParams float) : Prop :=
  length (r p) = 3 /\ Forall (fun x => f_lt x 0) (r p) /\
  length (A p) = 3 /\
  Forall (fun row => length row = 3 /\ Forall (fun a => f_le a 0) row) (A p) /\
  f_lt 0 (dt p) /\ is_finite (dt p) = true.

(** Three finite abundances at or above the floor. *)
Definition populated (v : list float) : Prop :=
  length v = 3 /\ Forall (fun x => f_le 0.1 x /\ is_finite x = true) v.



(** The binary64 regime with the time step negated, and an infinite
    population. *)
Definition reversed_params_binary64 : GLVParams float := {|
  r := r harsh_params_binary64; A := A harsh_params_binary64; dt := (-0.05)%float
|}.

Definition crowded_pops : list float := [infinity; 1.0; 1.0]%float.

(** Growth rates so small that [0.1 * r] underflows, with an infinite time
    step. *)
Definition tiny_rates : GLVParams float := {|
  r := [-5e-324; -5e-324; -5e-324]%float;
  A := [[-0.0; -0.0; -0.0]; [-0.0; -0.0; -0.0]; [-0.0; -0.0; -0.0]]%float;
  dt := infinity
|}.

(** ** Further definitions: shapes, command sequences *)

(** The part of the parameters the loops index: three rates, three rows of
    three entries. *)
Definition leading_block {num : Type} (p : GLVParams num) : GLVParams num :=
  {| r := take 3 (r p); A := map (take 3) (take 3 (A p)); dt := dt p |}.

(** Successive clicks on the scenario buttons, first tag first. *)
Fixpoint applyScenarios (tags : list string) (st : AppState) : option AppState :=
  match tags with
  | [] => Some st
  | type :: rest =>
      match applyScenario type st with
      | None => None
      | Some st' => applyScenarios rest st'
      end
  end.

(** The growth rates a button installs. *)
Definition preset_rates : list (list float) :=
  [[0.5; 0.3; 0.4]; [0.8; 1.5; 0.1]; [-0.2; -0.1; -0.1]]%float.

(** All of the first three components are NaN. *)
Definition all_nan (out : list float) : Prop :=
  forall i, i < 3 -> exists x, out !! i = Some x /\ is_nan x = true.

(** What a frame leaves in [dummy]: the transform of the last particle. *)
Definition object_of (t : Transform) : Object3D :=
  {| position := t_position t;
     scale := (t_scale t, t_scale t, t_scale t);
     matrix := matrix_of t |}.


(** A stand-in for [Math.acos] and a random stream of period seven, so that
    the particles of an example ensemble differ and lie away from the origin. *)
Definition sample_acos (x : float) : float := (1.5 - x)%float.

Definition demo_random (n : nat) : float :=
  match n mod 7 with
  | 0 => 0.125 | 1 => 0.5 | 2 => 0.75 | 3 => 0.25 | 4 => 0.875 | 5 => 0.375 | _ => 0.625
  end%float.

(** [mesh'] has the sizes of [mesh] and the same content from slot [n] on. *)
Definition untouched_beyond (n : nat) (mesh mesh' : InstancedMesh) : Prop :=
  length (instanceMatrix mesh') = length (instanceMatrix mesh) /\
  length (instanceColor mesh') = length (instanceColor mesh) /\
  forall i, n <= i ->
    instanceMatrix mesh' !! i = instanceMatrix mesh !! i /\
    instanceColor mesh' !! i = instanceColor mesh !! i.
(** * Facts about arrays and about one step *)

Section EngineFacts.
Context {num : Type} {arith : Arith num}.
Implicit Types (l pops newPops : list num) (params : GLVParams num).

Lemma js_set_length l i v : length (js_set l i v) = Nat.max (length l) (S i).
Proof.
  unfold js_set. destruct (Nat.ltb_spec i (length l)).
  - rewrite length_insert. lia.
  - rewrite !length_app, repeat_length. simpl. lia.
Qed.

Lemma js_set_lookup_eq l i v : js_set l i v !! i = Some v.
Proof.
  unfold js_set. destruct (Nat.ltb_spec i (length l)).
  - by apply list_lookup_insert_eq.
  - rewrite lookup_app_r by lia.
    rewrite lookup_app_r by (rewrite repeat_length; lia).
    rewrite repeat_length. by replace (i - length l - (i - length l)) with 0 by lia.
Qed.

(** No hole is created when the write is at most one past the end. *)
Lemma js_set_lookup_ne l i j v :
  i ≠ j -> i <= length l -> js_set l i v !! j = l !! j.
Proof.
  intros Hne Hle. unfold js_set. destruct (Nat.ltb_spec i (length l)).
  - by apply list_lookup_insert_ne.
  - replace (i - length l) with 0 by lia. simpl.
    destruct (Nat.lt_ge_cases j (length l)).
    + by rewrite lookup_app_l.
    + rewrite lookup_app_r by lia.
      rewrite (lookup_ge_None_2 l j) by lia.
      destruct (j - length l) as [|k] eqn:E; [lia | done].
Qed.

Lemma three_writes_length l s0 s1 s2 :
  length (three_writes l s0 s1 s2) = Nat.max 3 (length l).
Proof. unfold three_writes. rewrite !js_set_length. lia. Qed.

Lemma three_writes_0 l s0 s1 s2 : three_writes l s0 s1 s2 !! 0 = Some s0.
Proof.
  unfold three_writes.
  rewrite js_set_lookup_ne; [| lia | rewrite !js_set_length; lia].
  rewrite js_set_lookup_ne; [| lia | rewrite !js_set_length; lia].
  apply js_set_lookup_eq.
Qed.

Lemma three_writes_1 l s0 s1 s2 : three_writes l s0 s1 s2 !! 1 = Some s1.
Proof.
  unfold three_writes.
  rewrite js_set_lookup_ne; [| lia | rewrite !js_set_length; lia].
  apply js_set_lookup_eq.
Qed.

Lemma three_writes_2 l s0 s1 s2 : three_writes l s0 s1 s2 !! 2 = Some s2.
Proof. apply js_set_lookup_eq. Qed.

Lemma three_writes_rest l s0 s1 s2 i :
  3 <= i -> three_writes l s0 s1 s2 !! i = l !! i.
Proof.
  intros Hi. unfold three_writes.
  rewrite !js_set_lookup_ne; [done | lia | lia | lia | | lia | ];
    rewrite ?js_set_length; lia.
Qed.

Lemma three_writes_exact a b c s0 s1 s2 :
  three_writes [a; b; c] s0 s1 s2 = [s0; s1; s2].
Proof. reflexivity. Qed.

(** With three rows present the call returns, and its result is the three
    writes applied to a copy of the input. *)
Lemma updatePopulations_rows pops params row0 row1 row2 :
  A params !! 0 = Some row0 -> A params !! 1 = Some row1 -> A params !! 2 = Some row2 ->
  updatePopulations pops params =
    Some (three_writes pops (species_step pops params row0 0)
                            (species_step pops params row1 1)
                            (species_step pops params row2 2)).
Proof.
  intros H0 H1 H2. unfold updatePopulations, loop_step, update_species. simpl.
  rewrite H0, H1, H2. reflexivity.
Qed.

Lemma three_rows params :
  3 <= length (A params) ->
  exists row0 row1 row2,
    A params !! 0 = Some row0 /\ A params !! 1 = Some row1 /\ A params !! 2 = Some row2.
Proof.
  intros H. destruct (A params) as [|row0 [|row1 [|row2 rest]]]; simpl in H; try lia.
  by exists row0, row1, row2.
Qed.

(** A missing row makes the call throw. *)
Lemma updatePopulations_throws pops params :
  length (A params) < 3 -> updatePopulations pops params = None.
Proof.
  intros H. unfold updatePopulations, loop_step, update_species.
  destruct (A params) as [|row0 [|row1 [|row2 rest]]]; simpl in *; try lia; reflexivity.
Qed.

End EngineFacts.

(** * Facts about binary64 *)

Lemma f_ltb_leb (a b : float) : (a <? b)%float = true -> (a <=? b)%float = true.
Proof.
  rewrite FloatAxioms.ltb_spec, FloatAxioms.leb_spec. unfold SFltb, SFleb.
  destruct (SFcompare _ _) as [[]|]; congruence.
Qed.

Lemma SFcompare_refl (x : spec_float) : x <> S754_nan -> SFcompare x x = Some Eq.
Proof.
  destruct x as [s|s| |s m e]; simpl; intros Hx; try congruence; destruct s;
    rewrite ?Z.compare_refl, ?Pos.compare_cont_refl; reflexivity.
Qed.

(** Whatever is at least some number is not NaN. *)
Lemma f_leb_not_nan (a b : float) : (a <=? b)%float = true -> is_nan b = false.
Proof.
  unfold is_nan. rewrite FloatAxioms.leb_spec, FloatAxioms.eqb_spec. unfold SFleb, SFeqb. intros Hle.
  rewrite SFcompare_refl; [reflexivity |].
  intros Hb. rewrite Hb in Hle. by destruct (Prim2SF a).
Qed.

(** [Math.max(0.1, c)] is NaN when [c] is, and at least 0.1 otherwise. *)
Lemma f_max_floor_nan (c : float) : is_nan c = true -> f_max 0.1 c = nan.
Proof. intros Hc. unfold f_max. rewrite Hc. reflexivity. Qed.

Lemma f_max_floor_le (c : float) : is_nan c = false -> f_le 0.1 (f_max 0.1 c).
Proof.
  intros Hc. unfold f_max, f_le. rewrite Hc.
  change (is_nan 0.1) with false. change (classify 0.1) with PNormal. simpl.
  destruct (0.1 <? c)%float eqn:Hlt.
  - by apply f_ltb_leb.
  - reflexivity.
Qed.

Lemma f_max_floor (c : float) :
  is_nan (f_max 0.1 c) = true \/ f_le 0.1 (f_max 0.1 c).
Proof.
  destruct (is_nan c) eqn:Hc.
  - left. by rewrite f_max_floor_nan.
  - right. by apply f_max_floor_le.
Qed.

Lemma f_max_floor_is_nan (c : float) : is_nan (f_max 0.1 c) = is_nan c.
Proof.
  destruct (is_nan c) eqn:Hc.
  - by rewrite f_max_floor_nan.
  - eapply f_leb_not_nan, f_max_floor_le, Hc.
Qed.

Lemma f_leb_not_nan_l (a b : float) : (a <=? b)%float = true -> is_nan a = false.
Proof.
  unfold is_nan. rewrite FloatAxioms.leb_spec, FloatAxioms.eqb_spec. unfold SFleb, SFeqb. intros Hle.
  rewrite SFcompare_refl; [reflexivity |].
  intros Ha. by rewrite Ha in Hle.
Qed.

Lemma SFleb_not_ltb (x y : spec_float) : SFleb x y = true -> SFltb y x = false.
Proof.
  unfold SFleb, SFltb.
  destruct x as [sx|sx| |sx mx ex], y as [sy|sy| |sy my ey]; cbn;
    try done; try (by destruct sx); try (by destruct sy); try (by destruct sx, sy).
  destruct sx, sy; try done.
  - rewrite (Z.compare_antisym ey ex).
    destruct (ey ?= ex)%Z; cbn; try done.
    change (Pos.compare_cont Eq mx my) with (Pos.compare mx my).
    change (Pos.compare_cont Eq my mx) with (Pos.compare my mx).
    rewrite (Pos.compare_antisym mx my). by destruct (Pos.compare mx my).
  - rewrite (Z.compare_antisym ey ex).
    destruct (ey ?= ex)%Z; cbn; try done.
    change (Pos.compare_cont Eq mx my) with (Pos.compare mx my).
    change (Pos.compare_cont Eq my mx) with (Pos.compare my mx).
    rewrite (Pos.compare_antisym mx my). by destruct (Pos.compare mx my).
Qed.

(** [Math.max(0.1, c)] is 0.1 up to 0.1 and [c] above it. *)
Lemma f_max_floor_below (c : float) : f_le c 0.1 -> f_max 0.1 c = 0.1%float.
Proof.
  intros Hc. unfold f_max. rewrite (f_leb_not_nan_l _ _ Hc).
  change (is_nan 0.1) with false. change (classify 0.1) with PNormal. cbn [orb].
  unfold f_le in Hc. rewrite FloatAxioms.leb_spec in Hc.
  by rewrite FloatAxioms.ltb_spec, (SFleb_not_ltb _ _ Hc).
Qed.

Lemma f_max_floor_above (c : float) : f_lt 0.1 c -> f_max 0.1 c = c.
Proof.
  intros Hc. unfold f_max. rewrite (f_leb_not_nan _ _ (f_ltb_leb _ _ Hc)).
  change (is_nan 0.1) with false. change (classify 0.1) with PNormal. cbn [orb].
  unfold f_lt in Hc. by rewrite Hc.
Qed.

(** * The floor *)

(** C1, as stated, fails: with finite parameters, a positive time step and a
    finite input whose components are all at least 0.1, the interaction sum
    of species 0 is [+Infinity + -Infinity], so its new abundance is NaN,
    which is not at least 0.1. *)
Lemma C1_floor_lost_on_overflow :
  Forall (fun x => is_finite x = true) overflow_pops /\
  Forall (fun x => is_finite x = true) (r overflow_params) /\
  Forall (Forall (fun x => is_finite x = true)) (A overflow_params) /\
  f_lt 0 (dt overflow_params) /\
  Forall (f_le 0.1) overflow_pops /\
  updatePopulations overflow_pops overflow_params = Some [nan; 0.1; 0.1]%float /\
  ~ Forall (f_le 0.1) [nan; 0.1; 0.1]%float.
Proof.
  repeat split; try (repeat constructor; fail); try reflexivity.
  intros H. inversion H as [|x l Hx Hl]; subst. vm_compute in Hx. discriminate.
Qed.

(** C1, amended: for every parameters value with its three matrix rows and
    every three-component input with components at least 0.1, the call
    returns three components, each of which is NaN or at least 0.1; a
    component is NaN exactly when its Euler candidate
    [pops[i] + dN * dt] is NaN. *)
Theorem C1_floor_unless_nan (params : GLVParams float) (pops : list float) :
  3 <= length (A params) ->
  length pops = 3 ->
  Forall (f_le 0.1) pops ->
  exists out,
    updatePopulations pops params = Some out /\
    length out = 3 /\
    Forall (fun x => is_nan x = true \/ f_le 0.1 x) out /\
    (forall i row x,
        A params !! i = Some row -> out !! i = Some x ->
        is_nan x = is_nan (euler_candidate pops params row i)).
Proof.
  intros Hrows Hlen _.
  destruct (three_rows params Hrows) as (row0 & row1 & row2 & H0 & H1 & H2).
  destruct pops as [|a [|b [|c [|]]]]; simpl in Hlen; try lia.
  eexists. split; [by apply updatePopulations_rows |].
  rewrite three_writes_exact. split; [reflexivity |]. split.
  - rewrite !Forall_cons. repeat split; try apply f_max_floor. constructor.
  - intros i row x Hrow Hx.
    destruct i as [|[|[|i]]]; simpl in Hx; try discriminate;
      injection Hx as <-; rewrite Hrow in *;
      match goal with H : Some _ = Some _ |- _ => injection H as -> end;
      apply f_max_floor_is_nan.
Qed.

Lemma C1_floor_unless_nan_witness :
  exists out,
    updatePopulations [1.0; 1.0; 1.0]%float initial_params = Some out /\
    length out = 3 /\
    Forall (fun x => is_nan x = true \/ f_le 0.1 x) out /\
    (forall i row x,
        A initial_params !! i = Some row -> out !! i = Some x ->
        is_nan x = is_nan (euler_candidate [1.0; 1.0; 1.0]%float initial_params row i)).
Proof.
  apply (C1_floor_unless_nan initial_params [1.0; 1.0; 1.0]%float).
  - simpl. lia.
  - reflexivity.
  - repeat constructor.
Defined.

(** C10, as stated, fails: a NaN component in the input comes out as NaN (and
    spreads to the other species through the interaction sums), and a fourth
    component of the input is copied to the output untouched. *)
Lemma C10_floor_not_unconditional :
  (updatePopulations [nan; 1.0; 1.0]%float initial_params = Some [nan; nan; nan] /\
   ~ Forall (f_le 0.1) [nan; nan; nan]) /\
  (exists x0 x1 x2,
     updatePopulations [1.0; 1.0; 1.0; 0.0]%float initial_params
       = Some [x0; x1; x2; 0.0]%float /\
     ~ Forall (f_le 0.1) [x0; x1; x2; 0.0]%float).
Proof.
  split.
  - split; [reflexivity |].
    intros H. inversion H as [|x l Hx Hl]; subst. vm_compute in Hx. discriminate.
  - eexists _, _, _. split; [vm_compute; reflexivity |].
    intros H. rewrite !Forall_cons in H. destruct H as (_ & _ & _ & Hx & _).
    vm_compute in Hx. discriminate.
Qed.

(** What one write of the loop stores. *)
Lemma species_step_floor (pops : list float) (params : GLVParams float)
    (row : list float) (i : nat) :
  let c := euler_candidate pops params row i in
  let x := species_step pops params row i in
  is_nan x = is_nan c /\
  (is_nan x = true \/ f_le 0.1 x) /\
  (is_nan c = false -> f_le 0.1 x) /\
  (f_le c 0.1 -> x = 0.1%float) /\
  (f_lt 0.1 c -> x = c).
Proof.
  intros c x. unfold x, species_step. fold c. cbn [Math_max binary64 lit_0_1].
  split; [apply f_max_floor_is_nan |]. split; [apply f_max_floor |].
  split; [apply f_max_floor_le |]. split; [apply f_max_floor_below | apply f_max_floor_above].
Qed.

(** C10, amended: for every parameters value with its three matrix rows and
    every input array whatsoever (any length, components below 0.1,
    negative, infinite or NaN), the call returns.  Each of the first three
    components of the output is [Math.max(0.1, c)] for its Euler candidate
    [c = pops[i] + dN * dt]: it is NaN exactly when [c] is NaN; otherwise it
    is at least 0.1, namely 0.1 itself when [c <= 0.1] and [c] when
    [0.1 < c], whether or not the input was at least 0.1.  The components
    after the third are those of the input. *)
Theorem C10_floor_without_precondition (params : GLVParams float) (pops : list float) :
  3 <= length (A params) ->
  exists out,
    updatePopulations pops params = Some out /\
    length out = Nat.max 3 (length pops) /\
    (forall i, i < 3 ->
       exists row x,
         A params !! i = Some row /\ out !! i = Some x /\
         is_nan x = is_nan (euler_candidate pops params row i) /\
         (is_nan x = true \/ f_le 0.1 x) /\
         (is_nan (euler_candidate pops params row i) = false -> f_le 0.1 x) /\
         (f_le (euler_candidate pops params row i) 0.1 -> x = 0.1%float) /\
         (f_lt 0.1 (euler_candidate pops params row i) ->
            x = euler_candidate pops params row i)) /\
    (forall i, 3 <= i -> out !! i = pops !! i).
Proof.
  intros Hrows.
  destruct (three_rows params Hrows) as (row0 & row1 & row2 & H0 & H1 & H2).
  eexists. split; [by apply updatePopulations_rows |].
  split; [apply three_writes_length |]. split.
  - intros i Hi. destruct i as [|[|[|i]]]; try lia.
    + exists row0. eexists. split; [exact H0 |]. split; [apply three_writes_0 |].
      apply species_step_floor.
    + exists row1. eexists. split; [exact H1 |]. split; [apply three_writes_1 |].
      apply species_step_floor.
    + exists row2. eexists. split; [exact H2 |]. split; [apply three_writes_2 |].
      apply species_step_floor.
  - intros i Hi. by apply three_writes_rest.
Qed.

Lemma C10_floor_without_precondition_witness :
  exists out,
    updatePopulations [-5.0; 0.0; 2.0; 0.01]%float initial_params = Some out /\
    length out = Nat.max 3 (length [-5.0; 0.0; 2.0; 0.01]%float) /\
    (forall i, i < 3 ->
       exists row x,
         A initial_params !! i = Some row /\ out !! i = Some x /\
         is_nan x = is_nan (euler_candidate [-5.0; 0.0; 2.0; 0.01]%float initial_params row i) /\
         (is_nan x = true \/ f_le 0.1 x) /\
         (is_nan (euler_candidate [-5.0; 0.0; 2.0; 0.01]%float initial_params row i) = false ->
            f_le 0.1 x) /\
         (f_le (euler_candidate [-5.0; 0.0; 2.0; 0.01]%float initial_params row i) 0.1 ->
            x = 0.1%float) /\
         (f_lt 0.1 (euler_candidate [-5.0; 0.0; 2.0; 0.01]%float initial_params row i) ->
            x = euler_candidate [-5.0; 0.0; 2.0; 0.01]%float initial_params row i)) /\
    (forall i, 3 <= i -> out !! i = [-5.0; 0.0; 2.0; 0.01]%float !! i).
Proof.
  apply (C10_floor_without_precondition initial_params).
  simpl. lia.
Defined.

(** On that input: a negative and a zero abundance are lifted to the floor,
    the third species moves freely above it, the fourth component is copied. *)
Example floor_lifts_low_input :
  updatePopulations [-5.0; 0.0; 2.0; 0.01]%float initial_params
    = Some [0.1; 0.1; 2.0699999999999998; 0.01]%float /\
  euler_candidate [-5.0; 0.0; 2.0; 0.01]%float initial_params [-0.1; 0.5; -0.2]%float 0
    = (-5.1500000000000004)%float /\
  euler_candidate [-5.0; 0.0; 2.0; 0.01]%float initial_params [-0.5; -0.1; 0.0]%float 1
    = 0%float.
Proof. repeat split; vm_compute; reflexivity. Qed.

(** * The known value *)

(** C2, as stated, fails: species 0 does not come out within 1e-9 of 1.010. *)
Lemma C2_species0_not_1_010 :
  exists x0 x1 x2,
    updatePopulations [1.0; 1.0; 1.0]%float initial_params = Some [x0; x1; x2] /\
    (abs (x0 - 1.010) <=? 1e-9)%float = false.
Proof. eexists _, _, _. split; vm_compute; reflexivity. Qed.

(** C2, amended: with the initial parameters and population [1, 1, 1], one
    step returns 1.035 for species 0, that is
    [1 + 1 * (0.5 + (-0.1 + 0.5 - 0.2)) * 0.05 = 1 + 0.7 * 0.05], to within
    1e-9 in binary64 and exactly in exact arithmetic; species 1 and 2 come
    out as 0.985 and 1. *)
Theorem C2_known_value :
  (exists x0 x1 x2,
     updatePopulations [1.0; 1.0; 1.0]%float initial_params = Some [x0; x1; x2] /\
     (abs (x0 - 1.035) <=? 1e-9)%float = true /\
     (abs (x1 - 0.985) <=? 1e-9)%float = true /\
     (abs (x2 - 1.0) <=? 1e-9)%float = true) /\
  (exists q0 q1 q2,
     updatePopulations [Some 1; Some 1; Some 1]%Q (exact_params initial_params_exact)
       = Some [Some q0; Some q1; Some q2] /\
     (q0 == 1035 # 1000)%Q /\ (q1 == 985 # 1000)%Q /\ (q2 == 1)%Q).
Proof.
  split.
  - eexists _, _, _. repeat split; vm_compute; reflexivity.
  - eexists _, _, _. repeat split; vm_compute; reflexivity.
Qed.

(** * Purity of the step *)

Section StoreFacts.
Context {num : Type} {arith : Arith num}.
Implicit Types (h : gmap loc (list num)) (params : GLVParams num).

Lemma pure_loop_thrown a params (idx : list nat) :
  fold_left (loop_step a params) idx None = None.
Proof. induction idx; simpl; auto. Qed.

Lemma ref_loop_thrown v l params (idx : list nat) h :
  fold_left (loop_step_ref v l params) idx (None, h) = (None, h).
Proof. induction idx; simpl; auto. Qed.

(** Loop invariant: the input array is intact, the fresh array holds what the
    pure loop has built, and no other location has changed. *)
Lemma ref_loop_invariant v l a params (idx : list nat) :
  l ≠ v ->
  forall h np,
    h !! v = Some a -> h !! l = Some np ->
    exists res h',
      fold_left (loop_step_ref v l params) idx (Some tt, h) = (res, h') /\
      h' !! v = Some a /\
      (forall k, k ≠ l -> h' !! k = h !! k) /\
      match fold_left (loop_step a params) idx (Some np) with
      | Some out => res = Some tt /\ h' !! l = Some out
      | None => res = None
      end.
Proof.
  intros Hne. induction idx as [|i idx IH]; intros h np Hv Hl; simpl.
  - exists (Some tt), h. auto.
  - unfold update_species_ref, update_species, heap_array. rewrite Hv, Hl. simpl.
    destruct (A params !! i) as [row|].
    + set (np' := js_set np i (species_step a params row i)).
      destruct (IH (<[l:=np']> h) np') as (res & h' & Hfold & Hv' & Hframe & Hres).
      * by rewrite lookup_insert_ne.
      * by rewrite lookup_insert_eq.
      * exists res, h'. repeat split; auto.
        intros k Hk. rewrite Hframe by done. by rewrite lookup_insert_ne.
    + exists None, h. rewrite ref_loop_thrown, pure_loop_thrown. auto.
Qed.

Lemma updatePopulations_ref_spec h v a params :
  h !! v = Some a ->
  exists res h',
    updatePopulations_ref v params h = (res, h') /\
    h' !! v = Some a /\
    (forall k, is_Some (h !! k) -> h' !! k = h !! k) /\
    match updatePopulations a params with
    | Some out => exists l, res = Some l /\ l ≠ v /\ h !! l = None /\ h' !! l = Some out
    | None => res = None
    end.
Proof.
  intros Hv. unfold updatePopulations_ref, alloc, heap_array. rewrite Hv. simpl default.
  set (l := fresh (dom h)).
  assert (Hfresh : h !! l = None) by apply not_elem_of_dom, is_fresh.
  assert (Hne : l ≠ v) by congruence.
  destruct (ref_loop_invariant v l a params (seq 0 3) Hne (<[l:=a]> h) a)
    as (res & h' & Hfold & Hv' & Hframe & Hres).
  - by rewrite lookup_insert_ne.
  - by rewrite lookup_insert_eq.
  - rewrite Hfold.
    eexists _, h'. split; [reflexivity |]. split; [done |]. split.
    + intros k [x Hk]. rewrite Hframe by congruence.
      rewrite lookup_insert_ne by congruence. done.
    + unfold updatePopulations. 
      destruct (fold_left _ (seq 0 3) (Some a)) as [out|].
      * destruct Hres as [-> Hl]. by exists l.
      * by rewrite Hres.
Qed.

End StoreFacts.

(** C3: the step is deterministic and does not mutate its argument.  In a
    store of arrays, a call on a reference [v] whose array is [a] leaves [v]
    holding [a] and leaves every other existing array as it was; what it
    returns is a newly allocated array whose content is the value
    [updatePopulations a p], a function of [a] and [p] alone; hence two calls
    on equal arrays and parameters, in whatever stores, return equal
    arrays (or both throw). *)
Theorem C3_step_pure_and_non_mutating
    (h1 h2 : gmap loc (list float)) (v1 v2 : loc) (a : list float) (p : GLVParams float) :
  h1 !! v1 = Some a ->
  h2 !! v2 = Some a ->
  returned_array (updatePopulations_ref v1 p h1) = updatePopulations a p /\
  returned_array (updatePopulations_ref v1 p h1)
    = returned_array (updatePopulations_ref v2 p h2) /\
  snd (updatePopulations_ref v1 p h1) !! v1 = Some a /\
  (forall k, is_Some (h1 !! k) -> snd (updatePopulations_ref v1 p h1) !! k = h1 !! k) /\
  (forall l, fst (updatePopulations_ref v1 p h1) = Some l -> l ≠ v1 /\ h1 !! l = None).
Proof.
  intros Hv1 Hv2.
  assert (Hret : forall h v, h !! v = Some a ->
            returned_array (updatePopulations_ref v p h) = updatePopulations a p).
  { intros h v Hv.
    destruct (updatePopulations_ref_spec h v a p Hv) as (res & h' & -> & _ & _ & Hres).
    unfold returned_array. simpl.
    destruct (updatePopulations a p) as [out|].
    - destruct Hres as (l & -> & _ & _ & Hl). done.
    - by rewrite Hres. }
  destruct (updatePopulations_ref_spec h1 v1 a p Hv1) as (res & h' & E & Hkeep & Hframe & Hres).
  rewrite !Hret by done. rewrite E. simpl. repeat split; auto.
  - destruct (updatePopulations a p); [| congruence].
    destruct Hres as (l' & -> & Hne & Hnew & _). congruence.
  - destruct (updatePopulations a p); [| congruence].
    destruct Hres as (l' & -> & Hne & Hnew & _). congruence.
Qed.

Lemma C3_step_pure_and_non_mutating_witness :
  returned_array (updatePopulations_ref 0 initial_params store1)
    = updatePopulations [1.0; 1.0; 1.0]%float initial_params /\
  returned_array (updatePopulations_ref 0 initial_params store1)
    = returned_array (updatePopulations_ref 4 initial_params store2) /\
  snd (updatePopulations_ref 0 initial_params store1) !! 0 = Some [1.0; 1.0; 1.0]%float /\
  (forall k, is_Some (store1 !! k) ->
     snd (updatePopulations_ref 0 initial_params store1) !! k = store1 !! k) /\
  (forall l, fst (updatePopulations_ref 0 initial_params store1) = Some l ->
     l ≠ 0 /\ store1 !! l = None).
Proof.
  apply (C3_step_pure_and_non_mutating store1 store2 0 4 [1.0; 1.0; 1.0]%float initial_params).
  - reflexivity.
  - reflexivity.
Defined.

(** * Scenarios *)

Lemma applyScenario_returns (type : string) (st : AppState) :
  exists st', applyScenario type st = Some st'.
Proof.
  unfold applyScenario.
  repeat match goal with |- context [String.eqb ?a ?b] => destruct (String.eqb a b) end;
    eauto.
Qed.

(** C4, as stated, fails: a tag that is not a preset is accepted in silence;
    the call completes normally.  The tags of the written specification are
    themselves among the tags the page does not know. *)
Lemma C4_unknown_tag_no_error :
  ~ In "unknown" scenario_tags /\
  applyScenario "unknown" initial_state <> None /\
  applyScenario "balanced" initial_state = Some initial_state /\
  applyScenario "explosive-growth" initial_state = Some initial_state /\
  applyScenario "collapse" initial_state = Some initial_state.
Proof.
  repeat split; try reflexivity.
  - simpl. intros [H|[H|[H|[]]]]; discriminate.
  - discriminate.
Qed.

(** C4, amended: for every tag that is not one of ["balance"], ["explosion"],
    ["extinction"], the call completes normally, signals nothing, and returns
    the state as it was: growth rates, matrix, time step, populations,
    history and explanation are all unchanged. *)
Theorem C4_unknown_tag_is_noop (type : string) (st : AppState) :
  ~ In type scenario_tags ->
  applyScenario type st = Some st.
Proof.
  intros Hnot. unfold applyScenario.
  destruct (String.eqb_spec type "balance") as [->|_].
  { exfalso. apply Hnot. simpl. auto. }
  destruct (String.eqb_spec type "explosion") as [->|_].
  { exfalso. apply Hnot. simpl. auto. }
  destruct (String.eqb_spec type "extinction") as [->|_].
  { exfalso. apply Hnot. simpl. auto. }
  reflexivity.
Qed.

Lemma C4_unknown_tag_is_noop_witness :
  applyScenario "unknown" initial_state = Some initial_state.
Proof.
  apply (C4_unknown_tag_is_noop "unknown" initial_state).
  simpl. intros [H|[H|[H|[]]]]; discriminate.
Defined.

(** C5: for every known tag the call completes and changes, of the
    parameters, the growth rates only: the interaction matrix and the time
    step are those of the state before, and neither the populations nor the
    history are reset. *)
Theorem C5_scenario_touches_growth_rates_only (type : string) (st : AppState) :
  In type scenario_tags ->
  exists st',
    applyScenario type st = Some st' /\
    A (params st') = A (params st) /\
    dt (params st') = dt (params st) /\
    pops st' = pops st /\
    history st' = history st /\
    r (params st') =
      (if String.eqb type "balance" then [0.5; 0.3; 0.4]
       else if String.eqb type "explosion" then [0.8; 1.5; 0.1]
       else [-0.2; -0.1; -0.1])%float.
Proof.
  simpl. intros [<-|[<-|[<-|[]]]]; eexists; (split; [reflexivity |]); simpl; auto.
Qed.

Lemma C5_scenario_touches_growth_rates_only_witness :
  exists st',
    applyScenario "extinction" initial_state = Some st' /\
    A (params st') = A (params initial_state) /\
    dt (params st') = dt (params initial_state) /\
    pops st' = pops initial_state /\
    history st' = history initial_state /\
    r (params st') =
      (if String.eqb "extinction" "balance" then [0.5; 0.3; 0.4]
       else if String.eqb "extinction" "explosion" then [0.8; 1.5; 0.1]
       else [-0.2; -0.1; -0.1])%float.
Proof.
  apply (C5_scenario_touches_growth_rates_only "extinction" initial_state).
  simpl. auto.
Defined.

(** * The history window *)

Lemma Array_slice_negative {T : Type} (k : nat) (l : list T) :
  0 < k -> Array_slice (- Z.of_nat k) l = last_n k l.
Proof.
  intros Hk. unfold Array_slice, last_n.
  destruct (Z.ltb_spec (- Z.of_nat k) 0); [| lia].
  f_equal. lia.
Qed.

Lemma last_n_length {T : Type} (k : nat) (l : list T) :
  length (last_n k l) = Nat.min k (length l).
Proof. unfold last_n. rewrite length_drop. lia. Qed.

Lemma last_n_short {T : Type} (k : nat) (l : list T) :
  length l <= k -> last_n k l = l.
Proof. intros H. unfold last_n. by replace (length l - k) with 0 by lia. Qed.

(** Trimming early does not change what the window shows later. *)
Lemma last_n_app_last_n {T : Type} (k : nat) (l l' : list T) :
  last_n k (last_n k l ++ l') = last_n k (l ++ l').
Proof.
  destruct (Nat.le_gt_cases (length l) k) as [Hle|Hgt].
  - by rewrite (last_n_short k l).
  - unfold last_n. rewrite !length_app, length_drop.
    replace (length l - (length l - k) + length l' - k) with (length l') by lia.
    replace (length l + length l' - k) with ((length l - k) + length l') by lia.
    rewrite <- drop_drop. f_equal.
    rewrite drop_app_le by lia. done.
Qed.

Lemma push_history_window (prev : list Entry.t) (next : list float) :
  push_history prev next = last_n 50 (prev ++ [history_entry next]) /\
  length (push_history prev next) <= 50.
Proof.
  unfold push_history. change (-50)%Z with (- Z.of_nat 50)%Z.
  rewrite Array_slice_negative by lia. split; [done |].
  rewrite last_n_length. lia.
Qed.

Lemma tick_returns (st : AppState) :
  3 <= length (A (params st)) ->
  exists next,
    updatePopulations (pops st) (params st) = Some next /\
    tick st = Some {| pops := next;
                      history := push_history (history st) next;
                      explanation := explanation st;
                      params := params st |}.
Proof.
  intros Hrows.
  destruct (three_rows (params st) Hrows) as (row0 & row1 & row2 & H0 & H1 & H2).
  eexists. split; [by apply updatePopulations_rows |].
  unfold tick. by erewrite updatePopulations_rows.
Qed.

(** The window after [n] firings, in terms of the updater's own entry. *)
Lemma ticks_history (n : nat) (st : AppState) :
  3 <= length (A (params st)) ->
  length (history st) <= 50 ->
  exists st',
    ticks n st = Some st' /\
    length (samples n (pops st) (params st)) = n /\
    history st' =
      last_n 50 (history st ++ map history_entry (samples n (pops st) (params st))) /\
    length (history st') <= 50.
Proof.
  revert st. induction n as [|n IH]; intros st Hrows Hlen.
  - exists st. simpl. rewrite app_nil_r, last_n_short by done. auto.
  - destruct (tick_returns st Hrows) as (next & Hnext & Htick).
    destruct (push_history_window (history st) next) as [Hpush Hbound].
    set (st1 := {| pops := next; history := push_history (history st) next;
                   explanation := explanation st; params := params st |}) in *.
    destruct (IH st1 Hrows Hbound) as (st' & Hticks & Hsamples & Hhist & Hlen').
    subst st1. simpl in Hticks, Hsamples, Hhist.
    exists st'. simpl. rewrite Htick, Hnext. simpl.
    split; [done |]. split; [by rewrite Hsamples |]. split; [| done].
    rewrite Hhist, Hpush, last_n_app_last_n.
    by rewrite <- app_assoc.
Qed.

(** The [k]-th published sample is the [k+1]-fold step of the start. *)
Lemma samples_lookup (n k : nat) (v : list float) (p : GLVParams float) :
  3 <= length (A p) -> k < n -> samples n v p !! k = iterate (S k) v p.
Proof.
  intros Hrows. revert k v. induction n as [|n IH]; intros k v Hk; [lia |].
  destruct (three_rows p Hrows) as (row0 & row1 & row2 & H0 & H1 & H2).
  cbn [samples iterate].
  rewrite (updatePopulations_rows v p row0 row1 row2 H0 H1 H2).
  destruct k as [|k]; [reflexivity |].
  cbn [lookup list_lookup]. rewrite IH by lia. reflexivity.
Qed.

Lemma last_n_app_long {T : Type} (k : nat) (l l' : list T) :
  k <= length l' -> last_n k (l ++ l') = last_n k l'.
Proof.
  intros Hk. unfold last_n. rewrite length_app.
  replace (length l + length l' - k) with (length l + (length l' - k)) by lia.
  by rewrite drop_app_add.
Qed.

Lemma last_n_map {T U : Type} (g : T -> U) (k : nat) (l : list T) :
  last_n k (map g l) = map g (last_n k l).
Proof. unfold last_n. by rewrite length_map, skipn_map. Qed.

(** C9: the history is a sliding window.  Whenever the matrix has its three
    rows, [n] firings of the sampling loop all complete and publish [n]
    samples, the [k]-th of which is the [k+1]-fold step of the starting
    populations.  The history they leave is the 50 most recent entries, in
    order, of the old history followed by one entry
    [{ name: '', A: s[0], B: s[1], C: s[2] }] per sample [s]: never more than
    50 entries, and from the 50th firing on exactly the entries of the last
    50 samples and nothing older. *)
Theorem C9_history_sliding_window (n : nat) (st : AppState) :
  3 <= length (A (params st)) ->
  length (history st) <= 50 ->
  exists st',
    ticks n st = Some st' /\
    length (samples n (pops st) (params st)) = n /\
    (forall k, k < n ->
       samples n (pops st) (params st) !! k = iterate (S k) (pops st) (params st)) /\
    history st' =
      last_n 50 (history st ++
                 map (fun s => Entry.mk "" (s !! 0) (s !! 1) (s !! 2))
                     (samples n (pops st) (params st))) /\
    length (history st') <= 50 /\
    length (history st') = Nat.min 50 (length (history st) + n) /\
    (50 <= n ->
       history st' =
         map (fun s => Entry.mk "" (s !! 0) (s !! 1) (s !! 2))
             (last_n 50 (samples n (pops st) (params st)))).
Proof.
  intros Hrows Hlen.
  destruct (ticks_history n st Hrows Hlen) as (st' & Hticks & Hsamples & Hhist & Hbound).
  exists st'. split; [done |]. split; [done |].
  split; [intros k Hk; by apply samples_lookup |].
  split; [exact Hhist |]. split; [done |]. split.
  - rewrite Hhist, last_n_length, length_app, length_map, Hsamples. done.
  - intros Hn. rewrite Hhist, last_n_app_long by (rewrite length_map; lia).
    apply (last_n_map history_entry).
Qed.

Lemma C9_history_sliding_window_witness :
  exists st',
    ticks 60 initial_state = Some st' /\
    length (samples 60 (pops initial_state) (params initial_state)) = 60 /\
    (forall k, k < 60 ->
       samples 60 (pops initial_state) (params initial_state) !! k
       = iterate (S k) (pops initial_state) (params initial_state)) /\
    history st' =
      last_n 50 (history initial_state ++
                 map (fun s => Entry.mk "" (s !! 0) (s !! 1) (s !! 2))
                     (samples 60 (pops initial_state) (params initial_state))) /\
    length (history st') <= 50 /\
    length (history st') = Nat.min 50 (length (history initial_state) + 60) /\
    (50 <= 60 ->
       history st' =
         map (fun s => Entry.mk "" (s !! 0) (s !! 1) (s !! 2))
             (last_n 50 (samples 60 (pops initial_state) (params initial_state)))).
Proof.
  apply (C9_history_sliding_window 60 initial_state).
  - simpl. lia.
  - simpl. lia.
Defined.

(** The first two firings from the initial state: the entries hold the
    populations just published. *)
Example history_after_two_firings :
  history <$> ticks 2 initial_state =
    Some [ Entry.mk "" (Some 1.0349999999999999) (Some 0.98499999999999999) (Some 1) ;
           Entry.mk "" (Some 1.07065575) (Some 0.96943699999999999)
                       (Some 0.99997500000000006) ]%float.
Proof. vm_compute. reflexivity. Qed.

(** * The ensemble *)

Section EnsembleFacts.
Variables Math_sin Math_cos Math_acos : float -> float.
Variable Math_random : nat -> float.

Local Abbreviation make := (make_particle Math_sin Math_cos Math_acos Math_random).
Local Abbreviation ensemble := (particles Math_sin Math_cos Math_acos Math_random).

Lemma particles_loop (n a : nat) (temp : list Particle.t) :
  fold_left (fun st i => (fst st + 3, snd st ++ [make i (fst st)])) (seq a n) (3 * a, temp)
  = (3 * (a + n), temp ++ map (fun i => make i (3 * i)) (seq a n)).
Proof.
  revert a temp. induction n as [|n IH]; intros a temp; cbn [seq fold_left map fst snd].
  - by rewrite Nat.add_0_r, app_nil_r.
  - replace (3 * a + 3) with (3 * S a) by lia. rewrite IH.
    rewrite <- app_assoc. cbn [app]. f_equal. lia.
Qed.

(** The [i]-th particle is built at iteration [i], after [3 * i] draws. *)
Lemma particles_map (n : nat) :
  ensemble n = map (fun i => make i (3 * i)) (seq 0 n).
Proof.
  unfold particles.
  change (0, @nil Particle.t) with (3 * 0, @nil Particle.t).
  by rewrite particles_loop.
Qed.

Lemma particles_length (n : nat) : length (ensemble n) = n.
Proof. by rewrite particles_map, length_map, length_seq. Qed.

Lemma particles_species (n i : nat) (p : Particle.t) :
  ensemble n !! i = Some p -> Particle.species p = i mod 3.
Proof.
  rewrite particles_map, list_lookup_fmap. intros H.
  destruct (seq 0 n !! i) as [j|] eqn:Hj; [| done].
  apply lookup_seq in Hj as [-> _]. simpl in H. by injection H as <-.
Qed.

Lemma species_count_app (s : nat) (ps qs : list Particle.t) :
  species_count s (ps ++ qs) = species_count s ps + species_count s qs.
Proof. unfold species_count. by rewrite filter_app, length_app. Qed.

Lemma particles_three_more (k : nat) :
  ensemble (3 * S k) =
    ensemble (3 * k) ++
    [make (3 * k) (3 * (3 * k)); make (3 * k + 1) (3 * (3 * k + 1));
     make (3 * k + 2) (3 * (3 * k + 2))].
Proof.
  rewrite !particles_map.
  replace (3 * S k) with (3 * k + 3) by lia.
  rewrite seq_app, map_app. f_equal. cbn [seq map].
  repeat f_equal; lia.
Qed.

Lemma make_species (i draws : nat) : Particle.species (make i draws) = i mod 3.
Proof. reflexivity. Qed.

Lemma species_count_multiple (k s : nat) :
  s < 3 -> species_count s (ensemble (3 * k)) = k.
Proof.
  intros Hs. induction k as [|k IH].
  - reflexivity.
  - rewrite particles_three_more, species_count_app, IH.
    assert (E0 : (3 * k) mod 3 = 0)
      by (rewrite Nat.mul_comm; apply Nat.Div0.mod_mul).
    assert (E1 : (3 * k + 1) mod 3 = 1)
      by (rewrite Nat.add_comm, Nat.mul_comm, Nat.Div0.mod_add; reflexivity).
    assert (E2 : (3 * k + 2) mod 3 = 2)
      by (rewrite Nat.add_comm, Nat.mul_comm, Nat.Div0.mod_add; reflexivity).
    unfold species_count.
    rewrite !filter_cons, filter_nil, !make_species, E0, E1, E2.
    destruct s as [|[|[|s]]]; try lia; repeat case_decide; try lia; cbn [length]; lia.
Qed.

End EnsembleFacts.

(** C7: the [i]-th particle of an ensemble of [n] gets species [i mod 3], and
    when 3 divides [n] each of the three species gets exactly [n / 3] of the
    [n] particles, whatever the random draws. *)
Theorem C7_ensemble_balance
    (Math_sin Math_cos Math_acos : float -> float) (Math_random : nat -> float) (n : nat) :
  n mod 3 = 0 ->
  length (particles Math_sin Math_cos Math_acos Math_random n) = n /\
  (forall i p,
      particles Math_sin Math_cos Math_acos Math_random n !! i = Some p ->
      Particle.species p = i mod 3) /\
  (forall s, s < 3 ->
      species_count s (particles Math_sin Math_cos Math_acos Math_random n) = n / 3).
Proof.
  intros Hn. split; [apply particles_length |]. split; [apply particles_species |].
  intros s Hs.
  rewrite (Nat.div_mod_eq n 3) at 1. rewrite Hn, Nat.add_0_r.
  by apply species_count_multiple.
Qed.

Lemma C7_ensemble_balance_witness :
  length (particles sample_fn sample_fn sample_fn sample_random 3000) = 3000 /\
  (forall i p,
      particles sample_fn sample_fn sample_fn sample_random 3000 !! i = Some p ->
      Particle.species p = i mod 3) /\
  (forall s, s < 3 ->
      species_count s (particles sample_fn sample_fn sample_fn sample_random 3000)
        = 3000 / 3).
Proof.
  apply (C7_ensemble_balance sample_fn sample_fn sample_fn sample_random 3000).
  reflexivity.
Defined.

(** * The per-frame mapping *)

Section FrameFacts.
Variable f : Particle.t -> nat -> Transform.

Lemma render_lengths (t : Transform) (i : nat) (st : Object3D * InstancedMesh) :
  length (instanceMatrix (snd (render t i st))) = length (instanceMatrix (snd st)) /\
  length (instanceColor (snd (render t i st))) = length (instanceColor (snd st)).
Proof.
  unfold render. destruct (t_color t); simpl; rewrite ?length_insert; auto.
Qed.

Lemma render_other (t : Transform) (i j : nat) (st : Object3D * InstancedMesh) :
  i ≠ j ->
  instanceMatrix (snd (render t i st)) !! j = instanceMatrix (snd st) !! j /\
  instanceColor (snd (render t i st)) !! j = instanceColor (snd st) !! j.
Proof.
  intros Hne. unfold render.
  destruct (t_color t); simpl; rewrite ?list_lookup_insert_ne by done; auto.
Qed.

(** The slot written for a transform holds its matrix rounded to binary32,
    whatever [dummy] held before; the colour slot holds its colour, or stays
    if there is none. *)
Lemma render_slot (t : Transform) (i : nat) (st : Object3D * InstancedMesh) :
  i < length (instanceMatrix (snd st)) ->
  i < length (instanceColor (snd st)) ->
  instanceMatrix (snd (render t i st)) !! i = Some (Float32_store (matrix_of t)) /\
  instanceColor (snd (render t i st)) !! i =
    match t_color t with
    | Some c => Some (Some c)
    | None => instanceColor (snd st) !! i
    end.
Proof.
  intros Hm Hc. unfold render.
  destruct (t_color t); simpl; rewrite ?list_lookup_insert_eq by done; auto.
Qed.

Lemma frame_loop_lengths (ps : list Particle.t) (i0 : nat) (st : Object3D * InstancedMesh) :
  length (instanceMatrix (snd (frame_loop f ps i0 st))) = length (instanceMatrix (snd st)) /\
  length (instanceColor (snd (frame_loop f ps i0 st))) = length (instanceColor (snd st)).
Proof.
  revert i0 st. induction ps as [|p ps IH]; intros i0 st; [done |].
  change (frame_loop f (p :: ps) i0 st) with (frame_loop f ps (S i0) (render (f p i0) i0 st)).
  destruct (IH (S i0) (render (f p i0) i0 st)) as [-> ->]. apply render_lengths.
Qed.

(** Slots below the starting index are not written by the rest of the loop. *)
Lemma frame_loop_before (ps : list Particle.t) (i0 j : nat) (st : Object3D * InstancedMesh) :
  j < i0 ->
  instanceMatrix (snd (frame_loop f ps i0 st)) !! j = instanceMatrix (snd st) !! j /\
  instanceColor (snd (frame_loop f ps i0 st)) !! j = instanceColor (snd st) !! j.
Proof.
  revert i0 st. induction ps as [|p ps IH]; intros i0 st Hj; [done |].
  change (frame_loop f (p :: ps) i0 st) with (frame_loop f ps (S i0) (render (f p i0) i0 st)).
  destruct (IH (S i0) (render (f p i0) i0 st)) as [-> ->]; [lia |].
  apply render_other. lia.
Qed.

Lemma frame_loop_slot (ps : list Particle.t) (i0 j : nat) (p : Particle.t)
    (st : Object3D * InstancedMesh) :
  ps !! j = Some p ->
  i0 + j < length (instanceMatrix (snd st)) ->
  i0 + j < length (instanceColor (snd st)) ->
  instanceMatrix (snd (frame_loop f ps i0 st)) !! (i0 + j) = Some (Float32_store (matrix_of (f p (i0 + j)))) /\
  (forall c, t_color (f p (i0 + j)) = Some c ->
     instanceColor (snd (frame_loop f ps i0 st)) !! (i0 + j) = Some (Some c)).
Proof.
  revert i0 j st. induction ps as [|q ps IH]; intros i0 j st Hp Hm Hc; [done |].
  change (frame_loop f (q :: ps) i0 st) with (frame_loop f ps (S i0) (render (f q i0) i0 st)).
  destruct j as [|j].
  - injection Hp as ->. rewrite Nat.add_0_r in *.
    destruct (frame_loop_before ps (S i0) i0 (render (f p i0) i0 st)) as [-> ->]; [lia |].
    destruct (render_slot (f p i0) i0 st Hm Hc) as [-> Hcol].
    split; [done |]. intros c Hcolor. by rewrite Hcol, Hcolor.
  - replace (i0 + S j) with (S i0 + j) in * by lia.
    destruct (render_lengths (f q i0) i0 st) as [Hlm Hlc].
    apply IH; [done | by rewrite Hlm | by rewrite Hlc].
Qed.

(** After the callback has run for the last particle of a list, [dummy]
    holds the transform of that particle, in binary64. *)
Lemma frame_loop_last (l : list Particle.t) (p : Particle.t) (i0 : nat)
    (st : Object3D * InstancedMesh) :
  fst (frame_loop f (l ++ [p]) i0 st) = object_of (f p (i0 + length l)).
Proof.
  revert i0 st. induction l as [|q l IH]; intros i0 st.
  - cbn [app length]. by rewrite Nat.add_0_r.
  - change (frame_loop f ((q :: l) ++ [p]) i0 st)
      with (frame_loop f (l ++ [p]) (S i0) (render (f q i0) i0 st)).
    rewrite IH. cbn [length]. by replace (S i0 + length l) with (i0 + S (length l)) by lia.
Qed.

End FrameFacts.

Lemma color_table (s : nat) :
  s < 3 ->
  exists hex, colors !! s = Some hex /\
              color_lab s = Some (Hex hex) /\ color_page s = Some (Hex hex).
Proof.
  intros Hs. destruct s as [|[|[|s]]]; try lia; eexists; repeat split; reflexivity.
Qed.

Lemma frame_slot (f : Particle.t -> nat -> Transform) (ps : list Particle.t)
    (dummy : Object3D) (mesh : InstancedMesh) (i : nat) (p : Particle.t) (c : Color) :
  ps !! i = Some p ->
  t_color (f p i) = Some c ->
  i < length (instanceMatrix mesh) ->
  i < length (instanceColor mesh) ->
  slot (let st := frame_loop f ps 0 (dummy, mesh) in (fst st, Some (snd st))) i
    = Some (Float32_store (matrix_of (f p i)), Some c).
Proof.
  intros Hp Hcolor Hm Hc. unfold slot. simpl.
  destruct (frame_loop_slot f ps 0 i p (dummy, mesh) Hp Hm Hc) as [Hmat Hcol].
  simpl in Hmat, Hcol. by rewrite Hmat, (Hcol c Hcolor).
Qed.

(** The transform of the particle at index [i] is in [dummy] right after the
    callback has run for it. *)
Lemma frame_dummy (f : Particle.t -> nat -> Transform) (ps : list Particle.t)
    (dummy : Object3D) (mesh : InstancedMesh) (i : nat) (p : Particle.t) :
  ps !! i = Some p ->
  fst (frame_loop f (take (S i) ps) 0 (dummy, mesh)) = object_of (f p i).
Proof.
  intros Hp. rewrite (take_S_r ps i p Hp), frame_loop_last.
  rewrite length_take_le; [done |]. apply lookup_lt_Some in Hp. lia.
Qed.

(** C8: what the frame callback computes for a particle is a function of the
    particle, the population vector and the time alone.  Right after the
    callback has run for particle [i], the shared [dummy] holds, as binary64
    numbers, the position
    [(x + sin(time + x) * 0.5, y + cos(time + y) * 0.5, z)] and the uniform
    scale [populations[species] * k], with [k = 0.4] (lab version) or
    [k = 0.5] ([page.tsx], where [time] is the clock reading made for that
    particle), and the matrix composed of the two.  After the frame, slot [i]
    of the mesh holds exactly these numbers rounded to binary32 by the
    store, and the colour of the three-colour table at the species, whatever
    the abundances.  Neither depends on what [dummy] or the mesh held before,
    so a frame repeated on the same inputs writes the same bits. *)
Theorem C8_transform_pure
    (Math_sin Math_cos : float -> float) (populations : list float) (time : float)
    (clock : nat -> float) (ps : list Particle.t) (dummy dummy' : Object3D)
    (mesh mesh' : InstancedMesh) (i : nat) (p : Particle.t) :
  ps !! i = Some p ->
  Particle.species p < 3 ->
  i < length (instanceMatrix mesh) -> i < length (instanceColor mesh) ->
  i < length (instanceMatrix mesh') -> i < length (instanceColor mesh') ->
  let position_at (t : float) : Vector3 :=
    ((Particle.x p + Math_sin (t + Particle.x p) * 0.5)%float,
     (Particle.y p + Math_cos (t + Particle.y p) * 0.5)%float,
     Particle.z p) in
  let scale_by (k : float) : Vector3 :=
    ((js_get populations (Particle.species p) * k)%float,
     (js_get populations (Particle.species p) * k)%float,
     (js_get populations (Particle.species p) * k)%float) in
  let computed (t k : float) : Object3D :=
    {| position := position_at t; scale := scale_by k;
       matrix := {| m_position := position_at t; m_scale := scale_by k |} |} in
  let stored (t k : float) : Matrix4 :=
    {| m_position := Vector3_fround (position_at t);
       m_scale := Vector3_fround (scale_by k) |} in
  exists hex,
    colors !! Particle.species p = Some hex /\
    fst (useFrame_lab Math_sin Math_cos time populations (take (S i) ps) dummy (Some mesh))
      = computed time 0.4%float /\
    fst (useFrame_lab Math_sin Math_cos time populations (take (S i) ps) dummy' (Some mesh'))
      = computed time 0.4%float /\
    fst (useFrame_page Math_sin Math_cos clock populations (take (S i) ps) dummy (Some mesh))
      = computed (clock i) 0.5%float /\
    fst (useFrame_page Math_sin Math_cos clock populations (take (S i) ps) dummy' (Some mesh'))
      = computed (clock i) 0.5%float /\
    slot (useFrame_lab Math_sin Math_cos time populations ps dummy (Some mesh)) i
      = Some (stored time 0.4%float, Some (Hex hex)) /\
    slot (useFrame_lab Math_sin Math_cos time populations ps dummy' (Some mesh')) i
      = Some (stored time 0.4%float, Some (Hex hex)) /\
    slot (useFrame_page Math_sin Math_cos clock populations ps dummy (Some mesh)) i
      = Some (stored (clock i) 0.5%float, Some (Hex hex)) /\
    slot (useFrame_page Math_sin Math_cos clock populations ps dummy' (Some mesh')) i
      = Some (stored (clock i) 0.5%float, Some (Hex hex)).
Proof.
  intros Hp Hs Hm Hc Hm' Hc' position_at scale_by computed stored.
  destruct (color_table (Particle.species p) Hs) as (hex & Hhex & Hlab & Hpage).
  set (lab := fun (q : Particle.t) (_ : nat) =>
                computeTransform_lab Math_sin Math_cos q populations time).
  set (page := fun (q : Particle.t) (j : nat) =>
                 computeTransform_page Math_sin Math_cos q populations (clock j)).
  exists hex. split; [exact Hhex |].
  unfold useFrame_lab, useFrame_page. cbn [fst].
  fold lab page.
  rewrite !(frame_dummy lab _ _ _ i p Hp), !(frame_dummy page _ _ _ i p Hp).
  do 4 (split; [reflexivity |]).
  rewrite !(frame_slot lab ps _ _ i p (Hex hex) Hp Hlab) by done.
  rewrite !(frame_slot page ps _ _ i p (Hex hex) Hp Hpage) by done.
  repeat split; reflexivity.
Qed.

Lemma C8_transform_pure_witness :
  let p := (Particle.mk (-4.0) 0.5 6.0 1%nat)%float in
  let populations := [1.0; 2.0; 3.0]%float in
  let position_at (t : float) : Vector3 :=
    ((Particle.x p + sample_fn (t + Particle.x p) * 0.5)%float,
     (Particle.y p + sample_cos (t + Particle.y p) * 0.5)%float,
     Particle.z p) in
  let scale_by (k : float) : Vector3 :=
    ((js_get populations (Particle.species p) * k)%float,
     (js_get populations (Particle.species p) * k)%float,
     (js_get populations (Particle.species p) * k)%float) in
  let computed (t k : float) : Object3D :=
    {| position := position_at t; scale := scale_by k;
       matrix := {| m_position := position_at t; m_scale := scale_by k |} |} in
  let stored (t k : float) : Matrix4 :=
    {| m_position := Vector3_fround (position_at t);
       m_scale := Vector3_fround (scale_by k) |} in
  exists hex,
    colors !! Particle.species p = Some hex /\
    fst (useFrame_lab sample_fn sample_cos 2.5 populations (take 2 demo_particles)
           unit_object (Some (blank_mesh 3)))
      = computed 2.5%float 0.4%float /\
    fst (useFrame_lab sample_fn sample_cos 2.5 populations (take 2 demo_particles)
           used_object (Some (painted_mesh 3)))
      = computed 2.5%float 0.4%float /\
    fst (useFrame_page sample_fn sample_cos demo_clock populations (take 2 demo_particles)
           unit_object (Some (blank_mesh 3)))
      = computed (demo_clock 1) 0.5%float /\
    fst (useFrame_page sample_fn sample_cos demo_clock populations (take 2 demo_particles)
           used_object (Some (painted_mesh 3)))
      = computed (demo_clock 1) 0.5%float /\
    slot (useFrame_lab sample_fn sample_cos 2.5 populations demo_particles
            unit_object (Some (blank_mesh 3))) 1
      = Some (stored 2.5%float 0.4%float, Some (Hex hex)) /\
    slot (useFrame_lab sample_fn sample_cos 2.5 populations demo_particles
            used_object (Some (painted_mesh 3))) 1
      = Some (stored 2.5%float 0.4%float, Some (Hex hex)) /\
    slot (useFrame_page sample_fn sample_cos demo_clock populations demo_particles
            unit_object (Some (blank_mesh 3))) 1
      = Some (stored (demo_clock 1) 0.5%float, Some (Hex hex)) /\
    slot (useFrame_page sample_fn sample_cos demo_clock populations demo_particles
            used_object (Some (painted_mesh 3))) 1
      = Some (stored (demo_clock 1) 0.5%float, Some (Hex hex)).
Proof.
  apply (C8_transform_pure sample_fn sample_cos [1.0; 2.0; 3.0]%float 2.5 demo_clock
           demo_particles unit_object used_object (blank_mesh 3) (painted_mesh 3)
           1 (Particle.mk (-4.0) 0.5 6.0 1%nat)%float).
  - reflexivity.
  - simpl. lia.
  - simpl. lia.
  - simpl. lia.
  - simpl. lia.
  - simpl. lia.
Defined.

(** The second demo particle, abundance [2.0], in the lab version: the
    callback computes the scale [2.0 * 0.4] in binary64, and the mesh keeps
    the binary32 number next to it. *)
Example frame_stores_binary32 :
  fst (useFrame_lab sample_fn sample_cos 2.5 [1.0; 2.0; 3.0]%float (take 2 demo_particles)
         unit_object (Some (blank_mesh 3)))
  = {| position := (-4.3, 0.55, 6)%float;
       scale := (0.8, 0.8, 0.8)%float;
       matrix := {| m_position := (-4.3, 0.55, 6)%float;
                    m_scale := (0.8, 0.8, 0.8)%float |} |} /\
  slot (useFrame_lab sample_fn sample_cos 2.5 [1.0; 2.0; 3.0]%float demo_particles
          unit_object (Some (blank_mesh 3))) 1
  = Some ({| m_position := (-4.3000001907348633, 0.55000001192092896, 6)%float;
             m_scale := (0.800000011920929, 0.800000011920929, 0.800000011920929)%float |},
          Some (Hex "#00cc88")) /\
  Math_fround 0.8 = 0.800000011920929%float /\
  (0.8 =? 0.800000011920929)%float = false.
Proof. repeat split; vm_compute; reflexivity. Qed.

(** * Binary64: rounding keeps signs and never raises a sum

    The operations of binary64 are those of [SpecFloat]: the exact result is
    shifted to its canonical exponent and rounded to nearest, ties to even.
    What the collapse regime needs is that the rounded product of a
    non-positive and a positive number is non-positive, that the rounded sum
    of non-positive numbers is non-positive, and that adding a non-positive
    number to a positive finite one gives, after rounding, at most that
    number. *)

Section Binary64Rounding.
Local Open Scope Z_scope.

Lemma digits2_pos_bounds (m : positive) :
  2 ^ (Zpos (digits2_pos m) - 1) <= Zpos m < 2 ^ Zpos (digits2_pos m).
Proof.
  induction m as [m IH|m IH|]; cbn [digits2_pos].
  - rewrite Pos2Z.inj_succ. replace (Z.succ (Zpos (digits2_pos m)) - 1) with (Zpos (digits2_pos m)) by lia.
    rewrite Z.pow_succ_r by lia.
    replace (2 ^ Zpos (digits2_pos m)) with (2 * 2 ^ (Zpos (digits2_pos m) - 1)) in *
      by (rewrite <- Z.pow_succ_r by lia; f_equal; lia).
    lia.
  - rewrite Pos2Z.inj_succ. replace (Z.succ (Zpos (digits2_pos m)) - 1) with (Zpos (digits2_pos m)) by lia.
    rewrite Z.pow_succ_r by lia.
    replace (2 ^ Zpos (digits2_pos m)) with (2 * 2 ^ (Zpos (digits2_pos m) - 1)) in *
      by (rewrite <- Z.pow_succ_r by lia; f_equal; lia).
    lia.
  - simpl. lia.
Qed.

(** The magnitude [digits + exponent] grows with the value. *)
Lemma magnitude_mono (a b : positive) (i j : Z) :
  0 <= i -> 0 <= j ->
  Zpos a * 2 ^ i <= Zpos b * 2 ^ j ->
  Zpos (digits2_pos a) + i <= Zpos (digits2_pos b) + j.
Proof.
  intros Hi Hj H.
  pose proof (digits2_pos_bounds a) as [Ha _].
  pose proof (digits2_pos_bounds b) as [_ Hb].
  assert (H1 : 2 ^ (Zpos (digits2_pos a) - 1 + i) <= Zpos a * 2 ^ i).
  { rewrite Z.pow_add_r by lia. apply Z.mul_le_mono_nonneg_r; [apply Z.pow_nonneg; lia | lia]. }
  assert (H2 : Zpos b * 2 ^ j < 2 ^ (Zpos (digits2_pos b) + j)).
  { rewrite Z.pow_add_r by lia. apply Z.mul_lt_mono_pos_r; [apply Z.pow_pos_nonneg; lia | lia]. }
  assert (H3 : 2 ^ (Zpos (digits2_pos a) - 1 + i) < 2 ^ (Zpos (digits2_pos b) + j)) by lia.
  apply Z.pow_lt_mono_r_iff in H3; lia.
Qed.

Lemma fexp_mono (a b : Z) : a <= b -> fexp prec emax a <= fexp prec emax b.
Proof. unfold fexp. lia. Qed.

Lemma shifted_1 (a : shr_record) : 0 <= shr_m a -> shifted 1 a (shr_1 a).
Proof.
  destruct a as [m r s]. cbn [shr_m]. intros Hm. unfold shifted, inexact.
  change (2 ^ 1) with 2.
  destruct m as [|p|p]; [| |lia].
  - simpl. repeat split; try lia. intros H. by left.
  - destruct p as [p|p|]; cbn [shr_1 shr_m shr_r shr_s].
    + split; [lia |]. split.
      * rewrite Pos2Z.inj_xI. apply (Z.div_unique _ 2 _ 1); lia.
      * intros _. right. rewrite Pos2Z.inj_xI.
        rewrite Z.add_comm, Z.mul_comm, Z.mod_add by lia. discriminate.
    + split; [lia |]. split.
      * rewrite Pos2Z.inj_xO. apply (Z.div_unique _ 2 _ 0); lia.
      * intros H. by left.
    + split; [lia |]. split; [reflexivity |]. intros _. right. discriminate.
Qed.

Lemma shifted_trans (j k : Z) (a b c : shr_record) :
  0 <= j -> 0 <= k -> 0 <= shr_m a ->
  shifted j a b -> shifted k b c -> shifted (j + k) a c.
Proof.
  intros Hj Hk Ha (Hb0 & Hb & Hbi) (Hc0 & Hc & Hci).
  assert (Pj : 0 < 2 ^ j) by (apply Z.pow_pos_nonneg; lia).
  assert (Pk : 0 < 2 ^ k) by (apply Z.pow_pos_nonneg; lia).
  split; [done |]. split.
  - rewrite Hc, Hb, Z.pow_add_r, Z.div_div by lia. reflexivity.
  - intros Hi.
    assert (E : shr_m a mod 2 ^ (j + k) = shr_m a mod 2 ^ j + 2 ^ j * ((shr_m a / 2 ^ j) mod 2 ^ k)).
    { rewrite Z.pow_add_r by lia. apply Z.rem_mul_r; lia. }
    pose proof (Z.mod_pos_bound (shr_m a) (2 ^ j) Pj).
    pose proof (Z.mod_pos_bound (shr_m a / 2 ^ j) (2 ^ k) Pk).
    destruct (Hci Hi) as [Hbx|Hbx].
    + destruct (Hbi Hbx) as [?|?]; [by left | right]. nia.
    + right. rewrite <- Hb in E. nia.
Qed.

Lemma shifted_iter (p : positive) (a : shr_record) :
  0 <= shr_m a -> shifted (Zpos p) a (SpecFloat.iter_pos shr_1 p a).
Proof.
  revert a. induction p as [p IH|p IH|]; intros a Ha; cbn [SpecFloat.iter_pos].
  - pose proof (shifted_1 a Ha) as H1.
    pose proof (IH (shr_1 a) (proj1 H1)) as H2.
    pose proof (IH _ (proj1 H2)) as H3.
    replace (Zpos p~1) with (1 + Zpos p + Zpos p) by lia.
    eapply shifted_trans; [lia | lia | done | | exact H3].
    eapply shifted_trans; [lia | lia | done | exact H1 | exact H2].
  - pose proof (IH a Ha) as H1.
    pose proof (IH _ (proj1 H1)) as H2.
    replace (Zpos p~0) with (Zpos p + Zpos p) by lia.
    eapply shifted_trans; [lia | lia | done | exact H1 | exact H2].
  - by apply shifted_1.
Qed.

Lemma shifted_0 (a : shr_record) : 0 <= shr_m a -> shifted 0 a a.
Proof.
  intros Ha. split; [done |]. split; [| by left].
  change (2 ^ 0) with 1. by rewrite Z.div_1_r.
Qed.

Lemma shr_record_of_loc_m (m : Z) (l : location) : shr_m (shr_record_of_loc m l) = m.
Proof. by destruct l as [|[]]. Qed.

(** [shr_fexp] brings a mantissa to its canonical exponent when that is
    above the current one. *)
Lemma shr_fexp_shifted (m e : Z) (l : location) :
  0 <= m ->
  snd (shr_fexp prec emax m e l) = Z.max e (fexp prec emax (Zdigits2 m + e)) /\
  shifted (Z.max e (fexp prec emax (Zdigits2 m + e)) - e)
          (shr_record_of_loc m l) (fst (shr_fexp prec emax m e l)).
Proof.
  intros Hm. unfold shr_fexp, shr.
  set (c := fexp prec emax (Zdigits2 m + e)).
  assert (H0 : 0 <= shr_m (shr_record_of_loc m l)) by (by rewrite shr_record_of_loc_m).
  destruct (c - e) as [|p|p] eqn:E; cbn [fst snd].
  - replace (Z.max e c) with e by lia. replace (e - e) with 0 by lia.
    split; [done |]. by apply shifted_0.
  - replace (Z.max e c) with (e + Zpos p) by lia. replace (e + Zpos p - e) with (Zpos p) by lia.
    split; [done |]. by apply shifted_iter.
  - replace (Z.max e c) with e by lia. replace (e - e) with 0 by lia.
    split; [done |]. by apply shifted_0.
Qed.

Lemma round_nearest_even_bounds (mrs : shr_record) :
  shr_m mrs <= round_nearest_even (shr_m mrs) (loc_of_shr_record mrs) <= shr_m mrs + 1 /\
  (inexact mrs = false ->
   round_nearest_even (shr_m mrs) (loc_of_shr_record mrs) = shr_m mrs).
Proof.
  destruct mrs as [m [] []]; cbn; try destruct (Z.even m); split; try lia; try done.
Qed.

Lemma iter_xO_value (mx d : positive) : Zpos (Pos.iter xO mx d) = Zpos mx * 2 ^ Zpos d.
Proof.
  induction d as [|d IH] using Pos.peano_ind.
  - simpl. lia.
  - rewrite Pos.iter_succ, Pos2Z.inj_xO, IH, Pos2Z.inj_succ, Z.pow_succ_r by lia. lia.
Qed.

Lemma iter_xO_digits (mx d : positive) :
  Zpos (digits2_pos (Pos.iter xO mx d)) = Zpos (digits2_pos mx) + Zpos d.
Proof.
  induction d as [|d IH] using Pos.peano_ind.
  - simpl. lia.
  - rewrite Pos.iter_succ. cbn [digits2_pos]. rewrite Pos2Z.inj_succ, IH. lia.
Qed.

Lemma shl_align_spec (mx : positive) (ex ex' : Z) :
  snd (shl_align mx ex ex') = Z.min ex ex' /\
  Zpos (fst (shl_align mx ex ex')) = Zpos mx * 2 ^ (ex - snd (shl_align mx ex ex')) /\
  Zpos (digits2_pos (fst (shl_align mx ex ex'))) + snd (shl_align mx ex ex')
    = Zpos (digits2_pos mx) + ex.
Proof.
  unfold shl_align. destruct (ex' - ex) as [|d|d] eqn:E; cbn [fst snd].
  - replace (ex - ex) with 0 by lia. change (2 ^ 0) with 1. lia.
  - replace (ex - ex) with 0 by lia. change (2 ^ 0) with 1. lia.
  - rewrite iter_xO_value, iter_xO_digits.
    replace (ex - ex') with (Zpos d) by lia. lia.
Qed.

Lemma binary_round_aux_sign (s : bool) (m e : Z) (l : location) :
  0 <= m -> has_sign s (binary_round_aux prec emax s m e l).
Proof.
  intros Hm. unfold binary_round_aux.
  destruct (shr_fexp_shifted m e l Hm) as [_ (H1 & _)].
  destruct (shr_fexp prec emax m e l) as [mrs' e']. cbn [fst snd] in *.
  pose proof (round_nearest_even_bounds mrs') as [[Hr _] _].
  destruct (shr_fexp_shifted (round_nearest_even (shr_m mrs') (loc_of_shr_record mrs'))
              e' loc_Exact ltac:(lia)) as [_ (H2 & _)].
  destruct (shr_fexp prec emax _ e' loc_Exact) as [mrs'' e'']. cbn [fst snd] in *.
  destruct (shr_m mrs'') as [|p|p]; [done | | lia].
  by destruct (Z.leb e'' (emax - prec)).
Qed.

Lemma binary_round_sign (s : bool) (m : positive) (e : Z) :
  has_sign s (binary_round prec emax s m e).
Proof.
  unfold binary_round. destruct (shl_align _ _ _) as [mz ez].
  by apply binary_round_aux_sign.
Qed.

(** Rounding a positive value that is at most a representable [P] gives at
    most [P]. *)
Lemma binary_round_le (m : positive) (ez : Z) (mp : positive) (ep : Z) :
  bounded prec emax mp ep = true ->
  ez <= ep ->
  Zpos m <= Zpos mp * 2 ^ (ep - ez) ->
  SFleb (binary_round prec emax false m ez) (S754_finite false mp ep) = true.
Proof.
  intros Hb Hez Hle.
  apply andb_prop in Hb as [Hcan Hmax].
  apply Z.eqb_eq in Hcan. apply Z.leb_le in Hmax.
  unfold binary_round.
  set (c0 := fexp prec emax (Zpos (digits2_pos m) + ez)).
  destruct (shl_align_spec m ez c0) as (He1 & Hmz & Hdz).
  destruct (shl_align m ez c0) as [mz e1]. cbn [fst snd] in *.
  assert (Hmz' : Zpos mz <= Zpos mp * 2 ^ (ep - e1)).
  { rewrite Hmz. replace (ep - e1) with ((ep - ez) + (ez - e1)) by lia.
    rewrite Z.pow_add_r by lia.
    assert (0 < 2 ^ (ez - e1)) by (apply Z.pow_pos_nonneg; lia). nia. }
  assert (Hc0 : c0 <= ep).
  { rewrite <- Hcan. apply fexp_mono.
    pose proof (magnitude_mono mz mp 0 (ep - e1) ltac:(lia) ltac:(lia)) as Hmag.
    change (2 ^ 0) with 1 in Hmag. rewrite Z.mul_1_r in Hmag. specialize (Hmag Hmz'). lia. }
  unfold binary_round_aux.
  destruct (shr_fexp_shifted (Zpos mz) e1 loc_Exact ltac:(lia)) as [He' (_ & Hm1 & Hin1)].
  cbn [Zdigits2 shr_record_of_loc shr_m] in He', Hm1, Hin1.
  rewrite Hdz in He', Hm1, Hin1. fold c0 in He', Hm1, Hin1.
  destruct (shr_fexp prec emax (Zpos mz) e1 loc_Exact) as [mrs' e']. cbn [fst snd] in *.
  replace (Z.max e1 c0) with c0 in * by lia. subst e'.
  set (k := c0 - e1) in *.
  assert (Hk : 0 <= k) by (unfold k; lia).
  assert (Pk : 0 < 2 ^ k) by (apply Z.pow_pos_nonneg; lia).
  set (Pm := Zpos mp * 2 ^ (ep - c0)).
  assert (HPm : Zpos mp * 2 ^ (ep - e1) = Pm * 2 ^ k).
  { unfold Pm, k. rewrite <- Z.mul_assoc, <- Z.pow_add_r by lia. do 2 f_equal. lia. }
  rewrite HPm in Hmz'.
  pose proof (round_nearest_even_bounds mrs') as [[Hr1 Hr2] Hexact].
  set (m2 := round_nearest_even (shr_m mrs') (loc_of_shr_record mrs')) in *.
  assert (Hm1le : shr_m mrs' <= Pm).
  { rewrite Hm1. apply Z.div_le_upper_bound; lia. }
  assert (Hm2 : m2 <= Pm).
  { destruct (inexact mrs') eqn:Ei.
    - destruct (Hin1 eq_refl) as [Hx|Hx]; [discriminate |].
      pose proof (Z.div_mod (Zpos mz) (2 ^ k) ltac:(lia)) as Hdm.
      pose proof (Z.mod_pos_bound (Zpos mz) (2 ^ k) Pk) as Hmb.
      rewrite <- Hm1 in Hdm. nia.
    - rewrite (Hexact eq_refl). exact Hm1le. }
  assert (Hm2nn : 0 <= m2) by (rewrite Hm1 in Hr1; pose proof (Z.div_pos (Zpos mz) (2 ^ k)); lia).
  destruct (shr_fexp_shifted m2 c0 loc_Exact Hm2nn) as [He'' (_ & Hm3 & _)].
  destruct (shr_fexp prec emax m2 c0 loc_Exact) as [mrs'' e'']. cbn [fst snd] in *.
  cbn [shr_record_of_loc shr_m] in Hm3.
  destruct (shr_m mrs'') as [|m3|m3] eqn:E3; [reflexivity | | ].
  - assert (Hm2pos : 0 < m2).
    { destruct (Z.eq_dec m2 0) as [E0|]; [| lia].
      rewrite E0 in Hm3. rewrite Z.div_0_l in Hm3; [lia |].
      apply Z.pow_nonzero; lia. }
    destruct m2 as [|m2p|] eqn:Em2; try lia.
    cbn [Zdigits2] in He''.
    assert (Hc2 : fexp prec emax (Zpos (digits2_pos m2p) + c0) <= ep).
    { rewrite <- Hcan. apply fexp_mono.
      pose proof (magnitude_mono m2p mp 0 (ep - c0) ltac:(lia) ltac:(lia)) as Hmag.
      change (2 ^ 0) with 1 in Hmag. rewrite Z.mul_1_r in Hmag.
      fold Pm in Hmag. specialize (Hmag Hm2). lia. }
    assert (He''le : e'' <= ep) by lia.
    replace (Z.leb e'' (emax - prec)) with true by (symmetry; apply Z.leb_le; lia).
    unfold SFleb, SFcompare.
    destruct (Z.compare_spec e'' ep) as [Heq|Hlt|Hgt]; [| reflexivity | lia].
    assert (Hm3le : Zpos m3 <= Zpos mp).
    { cbn [Zdigits2] in Hm3. rewrite <- He'', Heq in Hm3. rewrite Hm3.
      apply Z.div_le_upper_bound; [apply Z.pow_pos_nonneg; lia |].
      unfold Pm in Hm2. lia. }
    change (Pos.compare_cont Eq m3 mp) with (Pos.compare m3 mp).
    destruct (Pos.compare_spec m3 mp); [reflexivity | reflexivity | lia].
  - pose proof (Z.div_pos m2 (2 ^ (Z.max c0 (fexp prec emax (Zdigits2 m2 + c0)) - c0))
                  Hm2nn ltac:(apply Z.pow_pos_nonneg; lia)). lia.
Qed.

(** ** Signs of products and sums *)

Lemma has_sign_nonpos (x : spec_float) : has_sign true x -> sf_nonpos x.
Proof. by destruct x. Qed.

Lemma SFmul_nonpos_posfin (x y : spec_float) :
  sf_nonpos x -> sf_posfin y -> sf_nonpos (SF64mul x y).
Proof.
  destruct x as [sx|sx| |sx mx ex], y as [sy|sy| |[] my ey]; cbn; try done.
  - intros ->. done.
  - intros -> _. apply has_sign_nonpos. by apply binary_round_aux_sign.
Qed.

Lemma SFmul_posfin_nonpos (x y : spec_float) :
  sf_posfin x -> sf_nonpos y -> sf_nonpos (SF64mul x y).
Proof.
  destruct x as [sx|sx| |[] mx ex], y as [sy|sy| |sy my ey]; cbn; try done.
  intros _ ->. apply has_sign_nonpos. by apply binary_round_aux_sign.
Qed.


Lemma SFleb_refl (x : spec_float) : x <> S754_nan -> SFleb x x = true.
Proof.
  intros Hx. unfold SFleb.
  destruct x as [s|s| |s m e]; try done; cbn; destruct s;
    rewrite ?Z.compare_refl, ?Pos.compare_cont_refl; reflexivity.
Qed.

(** Adding something non-positive to a positive finite number does not
    raise it. *)
Lemma SFadd_posfin_nonpos_le (P d : spec_float) :
  valid_binary P = true -> sf_posfin P -> sf_nonpos d ->
  SFleb (SF64add P d) P = true.
Proof.
  destruct P as [sp|sp| |[] mp ep]; try done. intros Hvalid _.
  destruct d as [sd|sd| |sd md ed]; try done.
  - intros _. unfold SF64add. cbn [SFadd]. by apply SFleb_refl.
  - intros ->. reflexivity.
  - intros ->. unfold SF64add. cbn [SFadd cond_Zopp].
    set (ez := Z.min ep ed).
    destruct (shl_align_spec mp ep ez) as (Hs & Hv & _).
    set (mp' := fst (shl_align mp ep ez)) in *.
    set (md' := fst (shl_align md ed ez)) in *.
    replace (snd (shl_align mp ep ez)) with ez in Hv by (unfold ez in *; lia).
    destruct (Zpos mp' + - Zpos md') as [|m|m] eqn:E; cbn [binary_normalize].
    + reflexivity.
    + apply binary_round_le; [exact Hvalid | unfold ez; lia | lia].
    + pose proof (binary_round_sign true m ez) as Hsign.
      by destruct (binary_round prec emax true m ez) as [s|s| |s m' e']; cbn in *; subst.
Qed.

Lemma is_finite_not_infinity (x : float) (s : bool) :
  is_finite x = true -> Prim2SF x <> S754_infinity s.
Proof.
  unfold is_finite, is_infinity. rewrite FloatAxioms.eqb_spec, abs_spec.
  intros H E. rewrite E in H. cbn in H. by rewrite orb_true_r in H.
Qed.

Lemma nonpos_of_le_zero (a : float) : f_le a 0 -> nonpos a.
Proof.
  unfold f_le, nonpos. rewrite FloatAxioms.leb_spec.
  change (Prim2SF 0) with (S754_zero false).
  by destruct (Prim2SF a) as [s|[]| |[] m e].
Qed.


Lemma posfin_of_lt_zero (a : float) : f_lt 0 a -> is_finite a = true -> posfin a.
Proof.
  unfold f_lt, posfin. rewrite FloatAxioms.ltb_spec.
  change (Prim2SF 0) with (S754_zero false).
  intros H Hfin. pose proof (is_finite_not_infinity a false Hfin) as Hinf.
  by destruct (Prim2SF a) as [s|[]| |[] m e].
Qed.

Lemma posfin_of_ge_floor (a : float) : f_le 0.1 a -> is_finite a = true -> posfin a.
Proof.
  unfold f_le, posfin. rewrite FloatAxioms.leb_spec.
  assert (E : exists m e, Prim2SF 0.1 = S754_finite false m e) by (by eexists _, _).
  destruct E as (m0 & e0 & ->).
  intros H Hfin. pose proof (is_finite_not_infinity a false Hfin) as Hinf.
  by destruct (Prim2SF a) as [s|[]| |[] m e].
Qed.

Lemma mul_nonpos_posfin (x y : float) : nonpos x -> posfin y -> nonpos (x * y).
Proof. unfold nonpos, posfin. rewrite mul_spec. apply SFmul_nonpos_posfin. Qed.

Lemma mul_posfin_nonpos (x y : float) : posfin x -> nonpos y -> nonpos (x * y).
Proof. unfold nonpos, posfin. rewrite mul_spec. apply SFmul_posfin_nonpos. Qed.


Lemma add_posfin_nonpos_le (p d : float) : posfin p -> nonpos d -> f_le (p + d) p.
Proof.
  unfold posfin, nonpos, f_le. rewrite FloatAxioms.leb_spec, add_spec.
  apply SFadd_posfin_nonpos_le, Prim2SF_valid.
Qed.


Lemma SFleb_between_posfin (x lo hi : spec_float) :
  sf_posfin lo -> sf_posfin hi ->
  SFleb lo x = true -> SFleb x hi = true -> sf_posfin x.
Proof.
  destruct lo as [?|?| |[] ml el], hi as [?|?| |[] mh eh]; try done. intros _ _.
  by destruct x as [s|[]| |[] m e].
Qed.



Lemma is_finite_of_posfin (x : float) : posfin x -> is_finite x = true.
Proof.
  unfold posfin, is_finite, is_infinity, is_nan.
  rewrite !FloatAxioms.eqb_spec, abs_spec.
  destruct (Prim2SF x) as [s|s| |[] m e]; try done. intros _.
  unfold SFeqb. rewrite SFcompare_refl by done. reflexivity.
Qed.

End Binary64Rounding.

(** * Collapse *)

Lemma iterate_last {num : Type} {arith : Arith num} (n : nat) (pops : list num)
    (params : GLVParams num) :
  iterate (S n) pops params =
    match iterate n pops params with
    | Some w => updatePopulations w params
    | None => None
    end.
Proof.
  revert pops. induction n as [|n IH]; intros pops.
  - simpl. by destruct (updatePopulations pops params).
  - change (iterate (S (S n)) pops params)
      with (match updatePopulations pops params with
            | Some next => iterate (S n) next params
            | None => None
            end).
    simpl. destruct (updatePopulations pops params) as [next|]; [| done].
    apply IH.
Qed.


(** ** The collapse regime in binary64 *)

Section CollapseBinary64.

Lemma posfin_between (x lo hi : float) :
  posfin lo -> posfin hi -> f_le lo x -> f_le x hi -> posfin x.
Proof.
  unfold posfin, f_le. rewrite !FloatAxioms.leb_spec. apply SFleb_between_posfin.
Qed.



Lemma posfin_floor : posfin 0.1.
Proof. by unfold posfin. Qed.

Lemma f_max_floor_cases (c : float) :
  is_nan c = false ->
  (f_lt 0.1 c /\ f_max 0.1 c = c) \/ f_max 0.1 c = 0.1%float.
Proof.
  intros Hc. destruct (0.1 <? c)%float eqn:E.
  - left. split; [exact E | by apply f_max_floor_above].
  - right. unfold f_max. rewrite Hc, E. reflexivity.
Qed.

(** A positive finite abundance plus a non-positive increment, clamped: it
    does not rise, it stays at or above the floor, and it stays finite. *)
Lemma clamped_sum_le (vi d : float) :
  posfin vi -> f_le 0.1 vi -> nonpos d ->
  f_le (f_max 0.1 (vi + d)) vi /\ f_le 0.1 (f_max 0.1 (vi + d)) /\
  posfin (f_max 0.1 (vi + d)).
Proof.
  intros Hvi Hfloor Hd.
  assert (Hc : f_le (vi + d) vi) by (by apply add_posfin_nonpos_le).
  destruct (f_max_floor_cases (vi + d) (f_leb_not_nan_l _ _ Hc)) as [[Hlt E]|E]; rewrite E.
  - split; [exact Hc |]. split; [by apply f_ltb_leb |].
    apply (posfin_between (vi + d) 0.1 vi);
      [apply posfin_floor | done | by apply f_ltb_leb | done].
  - split; [exact Hfloor |]. split; [reflexivity | apply posfin_floor].
Qed.













End CollapseBinary64.

(** ** A run in the regime comes to rest

    A step that changes the vector lowers the place of some component among
    the binary64 numbers, and no component goes below the floor, so only
    [steps_bound] steps can change anything. *)

Section Stationary.
Local Open Scope Z_scope.









End Stationary.



(** The resting vector of the stall: the slow regime is in the class of the
    theorem, and its run from [1, 1, 1] rests there, above the floor. *)
Example stall_rests_above_floor :
  collapse_regime slow_params /\ populated [1.0; 1.0; 1.0]%float /\
  updatePopulations [1.0; 1.0; 1.0]%float slow_params = Some [1.0; 1.0; 1.0]%float.
Proof.
  split; [| split; [| reflexivity]].
  - unfold collapse_regime. simpl. repeat split; repeat constructor; vm_compute; reflexivity.
  - unfold populated. simpl. repeat split; repeat constructor; vm_compute; reflexivity.
Qed.

(** A regime of the class, run from [1, 1, 1]: no step raises a component,
    and here the resting vector is the floor vector, reached within 400
    steps. *)
Example harsh_run_binary64 :
  non_increasing_run 400 [1.0; 1.0; 1.0]%float harsh_params_binary64 = true /\
  iterate 400 [1.0; 1.0; 1.0]%float harsh_params_binary64 = Some floor_vector.
Proof. split; vm_compute; reflexivity. Qed.

(** The page's own "extinction" preset keeps the matrix, one entry of which is
    positive, so it is outside the regime; run from the initial state it
    reaches the floor within 250 firings all the same. *)
Example extinction_preset_reaches_floor :
  pops <$> (applyScenario "extinction" initial_state ≫= ticks 250) = Some floor_vector.
Proof. vm_compute. reflexivity. Qed.

(** The positive time step matters: with a negative one the same rates make
    every component grow. *)
Example negative_time_step_grows :
  updatePopulations [1.0; 1.0; 1.0]%float reversed_params_binary64
    = Some [1.0249999999999999; 1.0349999999999999; 1.0249999999999999]%float /\
  Forall (f_lt 1.0) [1.0249999999999999; 1.0349999999999999; 1.0249999999999999]%float.
Proof. split; [vm_compute; reflexivity | repeat constructor]. Qed.

(** Finiteness matters too: an infinite abundance meets a zero matrix entry,
    and an infinite time step meets a decrement that underflows to zero;
    either product is NaN. *)
Example infinite_population_gives_nan :
  Forall (f_le 0.1) crowded_pops /\
  updatePopulations crowded_pops harsh_params_binary64 = Some [nan; 0.1; 0.1]%float.
Proof. split; [repeat constructor | vm_compute; reflexivity]. Qed.

Example infinite_time_step_gives_nan :
  collapse_regime {| r := r tiny_rates; A := A tiny_rates; dt := 0.05%float |} /\
  dt tiny_rates = infinity /\
  updatePopulations floor_vector tiny_rates = Some [nan; nan; nan].
Proof.
  split; [| split; [reflexivity | vm_compute; reflexivity]].
  unfold collapse_regime. simpl. repeat split; repeat constructor; vm_compute; reflexivity.
Qed.

(** * Collapse without rounding *)

Section ExactFacts.
Local Open Scope Q_scope.

Lemma clamp_ge (c : Q) : 1 # 10 <= clamp c.
Proof.
  unfold clamp. destruct (Qle_bool c (1 # 10)) eqn:E; [lra |].
  destruct (Qlt_le_dec (1 # 10) c) as [H|H]; [lra |].
  apply Qle_bool_iff in H. congruence.
Qed.

Lemma clamp_le (c u : Q) : c <= u -> 1 # 10 <= u -> clamp c <= u.
Proof. intros Hc Hu. unfold clamp. by destruct (Qle_bool c (1 # 10)). Qed.

Lemma clamp_cases (c : Q) : clamp c = 1 # 10 \/ (clamp c = c /\ 1 # 10 < c).
Proof.
  unfold clamp. destruct (Qle_bool c (1 # 10)) eqn:E; [by left | right].
  split; [done |]. destruct (Qlt_le_dec (1 # 10) c) as [H|H]; [done |].
  apply Qle_bool_iff in H. congruence.
Qed.

(** The Euler candidate is below the component by at least one decrement. *)
Lemma euler_Q_bound (vi ri a0 a1 a2 v0 v1 v2 d : Q) :
  1 # 10 <= vi -> ri < 0 -> 0 < d ->
  a0 <= 0 -> a1 <= 0 -> a2 <= 0 ->
  1 # 10 <= v0 -> 1 # 10 <= v1 -> 1 # 10 <= v2 ->
  euler_Q vi ri a0 a1 a2 v0 v1 v2 d <= vi + (1 # 10) * ri * d.
Proof.
  intros Hvi Hri Hd Ha0 Ha1 Ha2 Hv0 Hv1 Hv2. unfold euler_Q.
  assert (H0 : a0 * v0 <= 0) by nra.
  assert (H1 : a1 * v1 <= 0) by nra.
  assert (H2 : a2 * v2 <= 0) by nra.
  set (s := 0 + a0 * v0 + a1 * v1 + a2 * v2).
  assert (Hs : s <= 0) by (unfold s; lra).
  assert (Hp : vi * (ri + s) <= (1 # 10) * ri) by nra.
  nra.
Qed.

Lemma within_start (vi ri d : Q) : 1 # 10 <= vi -> within 0 vi ri d vi.
Proof.
  intros H. unfold within. repeat split; try lra. right.
  change (inject_Z (Z.of_nat 0)) with 0. lra.
Qed.

Lemma within_step (n : nat) (vi ri a0 a1 a2 w0 w1 w2 d wi : Q) :
  ri < 0 -> 0 < d ->
  a0 <= 0 -> a1 <= 0 -> a2 <= 0 ->
  1 # 10 <= w0 -> 1 # 10 <= w1 -> 1 # 10 <= w2 ->
  within n vi ri d wi ->
  within (S n) vi ri d (clamp (euler_Q wi ri a0 a1 a2 w0 w1 w2 d)) /\
  clamp (euler_Q wi ri a0 a1 a2 w0 w1 w2 d) <= wi.
Proof.
  intros Hri Hd Ha0 Ha1 Ha2 Hw0 Hw1 Hw2 (Hlo & Hhi & Hn).
  pose proof (euler_Q_bound wi ri a0 a1 a2 w0 w1 w2 d
                Hlo Hri Hd Ha0 Ha1 Ha2 Hw0 Hw1 Hw2) as Hc.
  assert (Hneg : (1 # 10) * ri * d < 0) by nra.
  assert (Hle : clamp (euler_Q wi ri a0 a1 a2 w0 w1 w2 d) <= wi)
    by (apply clamp_le; lra).
  split; [| done]. unfold within. split; [apply clamp_ge |]. split; [lra |].
  destruct (clamp_cases (euler_Q wi ri a0 a1 a2 w0 w1 w2 d)) as [->|[-> Hgt]].
  - left. reflexivity.
  - right. rewrite Nat2Z.inj_succ. unfold Z.succ. rewrite inject_Z_plus.
    change (inject_Z 1) with 1.
    destruct Hn as [Hn|Hn]; [lra |]. lra.
Qed.

(** Past its bound a component is at the floor. *)
Lemma within_bound (n : nat) (vi ri d wi : Q) :
  ri < 0 -> 0 < d ->
  (steps_to_floor ri d vi <= n)%nat ->
  within n vi ri d wi -> wi == 1 # 10.
Proof.
  intros Hri Hd Hn (Hlo & Hhi & [Hw|Hw]); [done |].
  unfold steps_to_floor in Hn.
  set (delta := (1 # 10) * - ri * d) in *.
  assert (Hdelta : 0 < delta) by (unfold delta; nra).
  set (e := vi - (1 # 10)) in *.
  assert (H1 : e / delta <= inject_Z (Qceiling (e / delta))) by apply Qle_ceiling.
  assert (H2 : inject_Z (Qceiling (e / delta)) <= inject_Z (Z.of_nat n)).
  { rewrite <- Zle_Qle. lia. }
  assert (H3 : e / delta <= inject_Z (Z.of_nat n)) by lra.
  assert (H4 : e == (e / delta) * delta) by (field; lra).
  assert (H5 : e <= inject_Z (Z.of_nat n) * delta) by (rewrite H4 at 1; nra).
  assert (H6 : inject_Z (Z.of_nat n) * ((1 # 10) * ri * d)
               == - (inject_Z (Z.of_nat n) * delta)) by (unfold delta; ring).
  rewrite H6 in Hw. unfold e in H5. lra.
Qed.

(** One step on explicit components. *)
Lemma exact_step (r0 r1 r2 a00 a01 a02 a10 a11 a12 a20 a21 a22 d w0 w1 w2 : Q) :
  updatePopulations (map Some [w0; w1; w2])
    (exact_params {| r := [r0; r1; r2];
                     A := [[a00; a01; a02]; [a10; a11; a12]; [a20; a21; a22]];
                     dt := d |})
  = Some (map Some [clamp (euler_Q w0 r0 a00 a01 a02 w0 w1 w2 d);
                    clamp (euler_Q w1 r1 a10 a11 a12 w0 w1 w2 d);
                    clamp (euler_Q w2 r2 a20 a21 a22 w0 w1 w2 d)]).
Proof. reflexivity. Qed.

End ExactFacts.

Section CollapseFacts.
Local Open Scope Q_scope.

Lemma above_floor_inv (v : list Q) :
  above_floor v ->
  exists v0 v1 v2, v = [v0; v1; v2] /\ 1 # 10 <= v0 /\ 1 # 10 <= v1 /\ 1 # 10 <= v2.
Proof.
  intros [Hlen Hall]. destruct v as [|v0 [|v1 [|v2 [|]]]]; try discriminate.
  rewrite !Forall_cons in Hall. destruct Hall as (H0 & H1 & H2 & _).
  by exists v0, v1, v2.
Qed.

Lemma above_floor_intro (v0 v1 v2 : Q) :
  1 # 10 <= v0 -> 1 # 10 <= v1 -> 1 # 10 <= v2 -> above_floor [v0; v1; v2].
Proof. intros. split; [done |]. rewrite !Forall_cons. repeat split; auto. Qed.

Lemma nonpositive_row_inv (row : list Q) :
  length row = 3%nat /\ Forall (fun a => a <= 0) row ->
  exists a0 a1 a2, row = [a0; a1; a2] /\ a0 <= 0 /\ a1 <= 0 /\ a2 <= 0.
Proof.
  intros [Hlen Hall]. destruct row as [|a0 [|a1 [|a2 [|]]]]; try discriminate.
  rewrite !Forall_cons in Hall. destruct Hall as (H0 & H1 & H2 & _).
  by exists a0, a1, a2.
Qed.

Section Trajectory.
Variables r0 r1 r2 a00 a01 a02 a10 a11 a12 a20 a21 a22 d v0 v1 v2 : Q.
Hypothesis Hr0 : r0 < 0.
Hypothesis Hr1 : r1 < 0.
Hypothesis Hr2 : r2 < 0.
Hypothesis Hd : 0 < d.
Hypothesis Ha00 : a00 <= 0.
Hypothesis Ha01 : a01 <= 0.
Hypothesis Ha02 : a02 <= 0.
Hypothesis Ha10 : a10 <= 0.
Hypothesis Ha11 : a11 <= 0.
Hypothesis Ha12 : a12 <= 0.
Hypothesis Ha20 : a20 <= 0.
Hypothesis Ha21 : a21 <= 0.
Hypothesis Ha22 : a22 <= 0.

Local Abbreviation p :=
  {| r := [r0; r1; r2];
     A := [[a00; a01; a02]; [a10; a11; a12]; [a20; a21; a22]];
     dt := d |}.

Lemma collapse_step (n : nat) (w0 w1 w2 : Q) :
  within n v0 r0 d w0 -> within n v1 r1 d w1 -> within n v2 r2 d w2 ->
  exists u0 u1 u2,
    updatePopulations (map Some [w0; w1; w2]) (exact_params p)
      = Some (map Some [u0; u1; u2]) /\
    within (S n) v0 r0 d u0 /\ within (S n) v1 r1 d u1 /\ within (S n) v2 r2 d u2 /\
    u0 <= w0 /\ u1 <= w1 /\ u2 <= w2.
Proof.
  intros H0 H1 H2.
  assert (L0 : 1 # 10 <= w0) by apply H0.
  assert (L1 : 1 # 10 <= w1) by apply H1.
  assert (L2 : 1 # 10 <= w2) by apply H2.
  destruct (within_step n v0 r0 a00 a01 a02 w0 w1 w2 d w0) as [W0 D0]; auto.
  destruct (within_step n v1 r1 a10 a11 a12 w0 w1 w2 d w1) as [W1 D1]; auto.
  destruct (within_step n v2 r2 a20 a21 a22 w0 w1 w2 d w2) as [W2 D2]; auto.
  eexists _, _, _. split; [apply exact_step |]. auto 10.
Qed.

Lemma collapse_trajectory (n : nat) :
  1 # 10 <= v0 -> 1 # 10 <= v1 -> 1 # 10 <= v2 ->
  exists w0 w1 w2,
    iterate n (map Some [v0; v1; v2]) (exact_params p) = Some (map Some [w0; w1; w2]) /\
    within n v0 r0 d w0 /\ within n v1 r1 d w1 /\ within n v2 r2 d w2.
Proof.
  intros Hv0 Hv1 Hv2. induction n as [|n IH].
  - exists v0, v1, v2. split; [reflexivity |]. auto using within_start.
  - destruct IH as (w0 & w1 & w2 & Hit & H0 & H1 & H2).
    destruct (collapse_step n w0 w1 w2 H0 H1 H2)
      as (u0 & u1 & u2 & Hstep & U0 & U1 & U2 & _).
    exists u0, u1, u2. rewrite iterate_last, Hit. auto.
Qed.

End Trajectory.

Lemma collapse_params_inv (p : GLVParams Q) :
  collapse_params p ->
  exists r0 r1 r2 a00 a01 a02 a10 a11 a12 a20 a21 a22 d,
    p = {| r := [r0; r1; r2];
           A := [[a00; a01; a02]; [a10; a11; a12]; [a20; a21; a22]];
           dt := d |} /\
    (r0 < 0 /\ r1 < 0 /\ r2 < 0) /\ 0 < d /\
    (a00 <= 0 /\ a01 <= 0 /\ a02 <= 0) /\
    (a10 <= 0 /\ a11 <= 0 /\ a12 <= 0) /\
    (a20 <= 0 /\ a21 <= 0 /\ a22 <= 0).
Proof.
  destruct p as [rs rows d]. unfold collapse_params. simpl.
  intros (Hlr & Hr & Hla & Ha & Hd).
  destruct rs as [|r0 [|r1 [|r2 [|]]]]; try discriminate.
  destruct rows as [|row0 [|row1 [|row2 [|]]]]; try discriminate.
  rewrite !Forall_cons in Hr. rewrite !Forall_cons in Ha.
  destruct Hr as (Hr0 & Hr1 & Hr2 & _). destruct Ha as (Ha0 & Ha1 & Ha2 & _).
  destruct (nonpositive_row_inv row0 Ha0) as (a00 & a01 & a02 & -> & ?).
  destruct (nonpositive_row_inv row1 Ha1) as (a10 & a11 & a12 & -> & ?).
  destruct (nonpositive_row_inv row2 Ha2) as (a20 & a21 & a22 & -> & ?).
  exists r0, r1, r2, a00, a01, a02, a10, a11, a12, a20, a21, a22, d. auto 10.
Qed.

End CollapseFacts.

(** What rounding takes away.  Read over exact rationals, the same program
    does reach the floor: for three strictly negative growth rates, a 3x3
    matrix without positive entries, a positive time step and three
    components at least 0.1, the state after [n] steps is component-wise at
    most the start, and is the floor vector as soon as [n] reaches
    [collapse_bound], the largest over the species of
    [ceil ((v_i - 0.1) / (0.1 * -r_i * dt))].  The program itself runs in
    binary64, where the theorem of the previous section is what holds. *)
Lemma collapse_without_rounding (p : GLVParams Q) (v : list Q) :
  collapse_params p ->
  above_floor v ->
  (exists w,
     updatePopulations (map Some v) (exact_params p) = Some (map Some w) /\
     above_floor w /\ Forall2 Qle w v) /\
  (forall n, exists w,
     iterate n (map Some v) (exact_params p) = Some (map Some w) /\
     above_floor w /\ Forall2 Qle w v /\
     (collapse_bound p v <= n -> Forall (fun x => x == 1 # 10)%Q w)).
Proof.
  intros Hp Hv.
  destruct (collapse_params_inv p Hp)
    as (r0 & r1 & r2 & a00 & a01 & a02 & a10 & a11 & a12 & a20 & a21 & a22 & d & -> &
        (Hr0 & Hr1 & Hr2) & Hd & (? & ? & ?) & (? & ? & ?) & (? & ? & ?)).
  destruct (above_floor_inv v Hv) as (v0 & v1 & v2 & -> & Hv0 & Hv1 & Hv2).
  split.
  - destruct (collapse_step r0 r1 r2 a00 a01 a02 a10 a11 a12 a20 a21 a22 d v0 v1 v2
                Hr0 Hr1 Hr2 Hd ltac:(done) ltac:(done) ltac:(done) ltac:(done)
                ltac:(done) ltac:(done) ltac:(done) ltac:(done) ltac:(done)
                0 v0 v1 v2 (within_start _ _ _ Hv0) (within_start _ _ _ Hv1)
                (within_start _ _ _ Hv2))
      as (u0 & u1 & u2 & Hstep & U0 & U1 & U2 & D0 & D1 & D2).
    exists [u0; u1; u2]. split; [done |]. split.
    + apply above_floor_intro; [apply U0 | apply U1 | apply U2].
    + repeat constructor; done.
  - intros n.
    destruct (collapse_trajectory r0 r1 r2 a00 a01 a02 a10 a11 a12 a20 a21 a22 d v0 v1 v2
                Hr0 Hr1 Hr2 Hd ltac:(done) ltac:(done) ltac:(done) ltac:(done)
                ltac:(done) ltac:(done) ltac:(done) ltac:(done) ltac:(done)
                n Hv0 Hv1 Hv2)
      as (w0 & w1 & w2 & Hit & W0 & W1 & W2).
    exists [w0; w1; w2]. split; [done |]. split.
    { apply above_floor_intro; [apply W0 | apply W1 | apply W2]. }
    split.
    { repeat constructor; [apply W0 | apply W1 | apply W2]. }
    unfold collapse_bound. cbn [r dt zip_with list_max fold_right]. intros Hn.
    rewrite !Forall_cons. repeat split; try constructor.
    + apply (within_bound n v0 r0 d); auto. lia.
    + apply (within_bound n v1 r1 d); auto. lia.
    + apply (within_bound n v2 r2 d); auto. lia.
Qed.

(** The bound of the collapse regime above, from [1, 1, 1]. *)
Example collapse_bound_harsh : collapse_bound harsh_params [1; 1; 1]%Q = 1800.
Proof. reflexivity. Qed.

(** In exact arithmetic the floor needs no precondition on the parameters'
    signs: whatever rational inputs of the right shape, every component of
    the result is at least 0.1. *)
Lemma floor_invariant_exact
    (r0 r1 r2 a00 a01 a02 a10 a11 a12 a20 a21 a22 d v0 v1 v2 : Q) :
  exists w,
    updatePopulations (map Some [v0; v1; v2])
      (exact_params {| r := [r0; r1; r2];
                       A := [[a00; a01; a02]; [a10; a11; a12]; [a20; a21; a22]];
                       dt := d |})
      = Some (map Some w) /\
    length w = 3 /\ Forall (fun x => 1 # 10 <= x)%Q w.
Proof.
  eexists. split; [apply exact_step |]. split; [reflexivity |].
  rewrite !Forall_cons. repeat split; try apply clamp_ge. constructor.
Qed.


(** * Further properties of the step *)

(** X1: the only way the step can fail is a matrix with fewer than three
    rows; short rows, short rate arrays and short or long population arrays
    never make it throw. *)
Theorem updatePopulations_throws_iff {num : Type} {arith : Arith num}
    (pops : list num) (params : GLVParams num) :
  updatePopulations pops params = None <-> length (A params) < 3.
Proof.
  split.
  - intros Hnone. destruct (Nat.lt_ge_cases (length (A params)) 3) as [|Hge]; [done |].
    destruct (three_rows params Hge) as (row0 & row1 & row2 & H0 & H1 & H2).
    rewrite (updatePopulations_rows pops params row0 row1 row2 H0 H1 H2) in Hnone.
    discriminate.
  - apply updatePopulations_throws.
Qed.

(** ** NaN *)

Lemma is_nan_Prim2SF (z : float) : is_nan z = true <-> Prim2SF z = S754_nan.
Proof.
  unfold is_nan. rewrite FloatAxioms.eqb_spec. unfold SFeqb. split.
  - intros H. destruct (Prim2SF z) eqn:E; try reflexivity;
      rewrite SFcompare_refl in H by discriminate; discriminate.
  - intros ->. reflexivity.
Qed.

Lemma add_nan_l (x y : float) : is_nan x = true -> is_nan (x + y) = true.
Proof.
  rewrite !is_nan_Prim2SF, add_spec. intros ->. reflexivity.
Qed.

Lemma add_nan_r (x y : float) : is_nan y = true -> is_nan (x + y) = true.
Proof.
  rewrite !is_nan_Prim2SF, add_spec. intros ->. by destruct (Prim2SF x).
Qed.

Lemma mul_nan_l (x y : float) : is_nan x = true -> is_nan (x * y) = true.
Proof.
  rewrite !is_nan_Prim2SF, mul_spec. intros ->. reflexivity.
Qed.

Lemma mul_nan_r (x y : float) : is_nan y = true -> is_nan (x * y) = true.
Proof.
  rewrite !is_nan_Prim2SF, mul_spec. intros ->. by destruct (Prim2SF x).
Qed.

Lemma species_step_nan (pops : list float) (params : GLVParams float)
    (row : list float) (i : nat) :
  is_nan (euler_candidate pops params row i) = true ->
  is_nan (species_step pops params row i) = true.
Proof.
  intros H. change (is_nan (f_max 0.1 (euler_candidate pops params row i)) = true).
  by rewrite f_max_floor_is_nan.
Qed.

Lemma interaction_nan_pops (row pops : list float) (j : nat) :
  j < 3 -> is_nan (js_get pops j) = true -> is_nan (interaction_sum row pops) = true.
Proof.
  intros Hj Hnan. unfold interaction_sum. cbn [fold_left seq].
  destruct j as [|[|[|j]]]; try lia.
  - apply add_nan_l, add_nan_l, add_nan_r, mul_nan_r, Hnan.
  - apply add_nan_l, add_nan_r, mul_nan_r, Hnan.
  - apply add_nan_r, mul_nan_r, Hnan.
Qed.

Lemma interaction_nan_row (row pops : list float) (j : nat) :
  j < 3 -> is_nan (js_get row j) = true -> is_nan (interaction_sum row pops) = true.
Proof.
  intros Hj Hnan. unfold interaction_sum. cbn [fold_left seq].
  destruct j as [|[|[|j]]]; try lia.
  - apply add_nan_l, add_nan_l, add_nan_r, mul_nan_l, Hnan.
  - apply add_nan_l, add_nan_r, mul_nan_l, Hnan.
  - apply add_nan_r, mul_nan_l, Hnan.
Qed.

Lemma candidate_nan_interaction (pops : list float) (params : GLVParams float)
    (row : list float) (i : nat) :
  is_nan (interaction_sum row pops) = true ->
  is_nan (euler_candidate pops params row i) = true.
Proof.
  intros H. unfold euler_candidate.
  apply add_nan_r, mul_nan_l, mul_nan_r, add_nan_r, H.
Qed.

Lemma candidate_nan_rate (pops : list float) (params : GLVParams float)
    (row : list float) (i : nat) :
  is_nan (js_get (r params) i) = true ->
  is_nan (euler_candidate pops params row i) = true.
Proof.
  intros H. unfold euler_candidate.
  apply add_nan_r, mul_nan_l, mul_nan_r, add_nan_l, H.
Qed.

Lemma candidate_nan_dt (pops : list float) (params : GLVParams float)
    (row : list float) (i : nat) :
  is_nan (dt params) = true ->
  is_nan (euler_candidate pops params row i) = true.
Proof.
  intros H. unfold euler_candidate. apply add_nan_r, mul_nan_r, H.
Qed.

Lemma js_get_lookup {num : Type} {arith : Arith num} (l : list num) (i : nat) (x : num) :
  l !! i = Some x -> js_get l i = x.
Proof.
  intros H. unfold js_get. revert i H.
  induction l as [|y l IH]; intros [|i] H; simpl in *; try discriminate.
  - by injection H.
  - by apply IH.
Qed.

Lemma js_get_missing {num : Type} {arith : Arith num} (l : list num) (i : nat) :
  length l <= i -> js_get l i = js_nan.
Proof. intros H. unfold js_get. by apply nth_overflow. Qed.

(** One poisoned step. *)
Lemma nan_step (params : GLVParams float) (pops : list float) (j : nat) :
  3 <= length (A params) -> j < 3 -> is_nan (js_get pops j) = true ->
  exists out, updatePopulations pops params = Some out /\ all_nan out.
Proof.
  intros Hrows Hj Hnan.
  destruct (three_rows params Hrows) as (row0 & row1 & row2 & H0 & H1 & H2).
  eexists. split; [by apply updatePopulations_rows |].
  intros i Hi. destruct i as [|[|[|i]]]; try lia; eexists; split;
    [apply three_writes_0 | | apply three_writes_1 | | apply three_writes_2 | ];
    apply species_step_nan, candidate_nan_interaction, (interaction_nan_pops _ pops j);
    assumption.
Qed.

(** X2: NaN is absorbing.  If one of the first three input components is NaN
    (or missing, which reads as NaN), then after one step all three
    components are NaN, and they stay NaN after any number of further
    steps: the floor never brings a poisoned state back. *)
Theorem nan_is_absorbing (params : GLVParams float) (pops : list float) (j n : nat) :
  3 <= length (A params) ->
  j < 3 ->
  is_nan (js_get pops j) = true ->
  exists out, iterate (S n) pops params = Some out /\ all_nan out.
Proof.
  intros Hrows Hj. revert pops j Hj. induction n as [|n IH]; intros pops j Hj Hnan.
  - destruct (nan_step params pops j Hrows Hj Hnan) as (out & Hout & Hall).
    exists out. simpl. by rewrite Hout.
  - destruct (nan_step params pops j Hrows Hj Hnan) as (next & Hnext & Hall).
    destruct (Hall 0) as (x & Hx & Hxnan); [lia |].
    destruct (IH next 0) as (out & Hout & Hall'); [lia | |].
    { by rewrite (js_get_lookup next 0 x Hx). }
    exists out. split; [| done].
    change (iterate (S (S n)) pops params)
      with (match updatePopulations pops params with
            | Some next => iterate (S n) next params
            | None => None
            end).
    by rewrite Hnext.
Qed.

Lemma nan_is_absorbing_witness :
  exists out, iterate (S 9) [1.0; nan; 1.0]%float initial_params = Some out /\ all_nan out.
Proof.
  apply (nan_is_absorbing initial_params [1.0; nan; 1.0]%float 1 9).
  - simpl. lia.
  - lia.
  - reflexivity.
Defined.

(** X3: ragged or poisoned parameters give NaN, not an exception.  With three
    matrix rows present the step returns; a NaN time step makes all three
    components NaN; a growth rate [r[i]] or a matrix entry [A[i][j]] that is
    NaN or missing makes component [i] NaN. *)
Theorem nan_from_parameters (params : GLVParams float) (pops : list float) :
  3 <= length (A params) ->
  exists out,
    updatePopulations pops params = Some out /\
    (is_nan (dt params) = true -> all_nan out) /\
    (forall i row j,
        i < 3 -> A params !! i = Some row ->
        is_nan (js_get (r params) i) = true \/ (j < 3 /\ is_nan (js_get row j) = true) ->
        exists x, out !! i = Some x /\ is_nan x = true).
Proof.
  intros Hrows.
  destruct (three_rows params Hrows) as (row0 & row1 & row2 & H0 & H1 & H2).
  eexists. split; [by apply updatePopulations_rows |]. split.
  - intros Hdt i Hi. destruct i as [|[|[|i]]]; try lia; eexists; split;
      [apply three_writes_0 | | apply three_writes_1 | | apply three_writes_2 | ];
      by apply species_step_nan, candidate_nan_dt.
  - intros i row j Hi Hrow Hbad.
    assert (Hcand : is_nan (euler_candidate pops params row i) = true).
    { destruct Hbad as [Hr|[Hj Ha]].
      - by apply candidate_nan_rate.
      - by apply candidate_nan_interaction, (interaction_nan_row row pops j). }
    destruct i as [|[|[|i]]]; try lia; rewrite Hrow in *;
      match goal with H : Some _ = Some _ |- _ => injection H as <- end;
      eexists; split;
      [apply three_writes_0 | | apply three_writes_1 | | apply three_writes_2 | ];
      by apply species_step_nan.
Qed.

Lemma nan_from_parameters_witness :
  exists out,
    updatePopulations [1.0; 1.0; 1.0]%float
      {| r := [0.5]%float; A := [[-0.1; 0.5]; []; [-0.1; -0.2; -0.1]]%float;
         dt := 0.05%float |} = Some out /\
    (is_nan 0.05%float = true -> all_nan out) /\
    (forall i row j,
        i < 3 -> [[-0.1; 0.5]; []; [-0.1; -0.2; -0.1]]%float !! i = Some row ->
        is_nan (js_get [0.5]%float i) = true \/ (j < 3 /\ is_nan (js_get row j) = true) ->
        exists x, out !! i = Some x /\ is_nan x = true).
Proof.
  apply (nan_from_parameters
           {| r := [0.5]%float; A := [[-0.1; 0.5]; []; [-0.1; -0.2; -0.1]]%float;
              dt := 0.05%float |} [1.0; 1.0; 1.0]%float).
  simpl. lia.
Defined.

(** ** What the step reads *)

Section LeadingBlock.
Context {num : Type} {arith : Arith num}.

Lemma js_get_take (l : list num) (i n : nat) : i < n -> js_get (take n l) i = js_get l i.
Proof.
  intros Hi. unfold js_get. revert i n Hi.
  induction l as [|x l IH]; intros i n Hi.
  - by rewrite take_nil.
  - destruct n as [|n]; [lia |]. destruct i as [|i]; [done |]. simpl. apply IH. lia.
Qed.

Lemma interaction_sum_take (row pops : list num) :
  interaction_sum (take 3 row) pops = interaction_sum row pops /\
  interaction_sum row (take 3 pops) = interaction_sum row pops.
Proof.
  unfold interaction_sum. cbn [fold_left seq].
  split; by rewrite !js_get_take by lia.
Qed.

Lemma species_step_take (pops : list num) (params : GLVParams num) (row : list num) (i : nat) :
  i < 3 ->
  species_step pops (leading_block params) (take 3 row) i = species_step pops params row i /\
  species_step (take 3 pops) params row i = species_step pops params row i.
Proof.
  intros Hi. unfold species_step, euler_candidate.
  destruct (interaction_sum_take row pops) as [-> ->].
  cbn [leading_block r dt]. by rewrite !js_get_take by lia.
Qed.

Lemma three_writes_take (pops : list num) (s0 s1 s2 : num) :
  three_writes (take 3 pops) s0 s1 s2 = take 3 (three_writes pops s0 s1 s2).
Proof.
  apply list_eq. intros i. destruct (Nat.lt_ge_cases i 3) as [Hi|Hi].
  - rewrite lookup_take_lt by done.
    destruct i as [|[|[|i]]]; try lia;
      by rewrite ?three_writes_0, ?three_writes_1, ?three_writes_2.
  - rewrite lookup_take_ge by done. rewrite three_writes_rest by done.
    by apply lookup_take_ge.
Qed.

(** X4: the step reads the leading 3x3 block of the matrix, the first three
    growth rates and the first three populations, and nothing else: cutting
    the parameters down to that block changes nothing, and cutting the input
    down to three components changes only that the untouched tail is no longer
    copied to the output. *)
Theorem step_reads_leading_block (pops : list num) (params : GLVParams num) :
  updatePopulations pops (leading_block params) = updatePopulations pops params /\
  updatePopulations (take 3 pops) params = take 3 <$> updatePopulations pops params.
Proof.
  destruct (Nat.lt_ge_cases (length (A params)) 3) as [Hlt|Hge].
  - rewrite !(updatePopulations_throws _ params) by done.
    split; [| done]. apply updatePopulations_throws.
    cbn [leading_block A]. rewrite length_map, length_take. lia.
  - destruct (three_rows params Hge) as (row0 & row1 & row2 & H0 & H1 & H2).
    rewrite !(updatePopulations_rows _ params row0 row1 row2) by done.
    split.
    + rewrite (updatePopulations_rows pops (leading_block params)
                 (take 3 row0) (take 3 row1) (take 3 row2)).
      * destruct (species_step_take pops params row0 0) as [-> _]; [lia |].
        destruct (species_step_take pops params row1 1) as [-> _]; [lia |].
        destruct (species_step_take pops params row2 2) as [-> _]; [lia |].
        reflexivity.
      * cbn [leading_block A]. by rewrite list_lookup_fmap, lookup_take_lt, H0 by lia.
      * cbn [leading_block A]. by rewrite list_lookup_fmap, lookup_take_lt, H1 by lia.
      * cbn [leading_block A]. by rewrite list_lookup_fmap, lookup_take_lt, H2 by lia.
    + cbn [fmap option_fmap option_map]. f_equal. rewrite <- three_writes_take.
      destruct (species_step_take pops params row0 0) as [_ ->]; [lia |].
      destruct (species_step_take pops params row1 1) as [_ ->]; [lia |].
      destruct (species_step_take pops params row2 2) as [_ ->]; [lia |].
      reflexivity.
Qed.

End LeadingBlock.

(** * Further properties of the sampling loop *)

Lemma push_history_keeps_49 (prev : list Entry.t) (next : list float) :
  push_history prev next = last_n 49 prev ++ [history_entry next].
Proof.
  destruct (push_history_window prev next) as [-> _].
  unfold last_n. rewrite length_app. cbn [length].
  replace (length prev + 1 - 50) with (length prev - 49) by lia.
  rewrite drop_app_le by lia. reflexivity.
Qed.

(** X6: one firing of the sampling loop keeps the 49 most recent old entries
    and appends one entry for the populations it publishes; so the newest
    entry is always last, and its [A], [B], [C] fields are the three
    populations now in the state (what the chart shows is what the particles
    show).  Parameters and explanation are not touched. *)
Theorem tick_appends_current_sample (st : AppState) :
  3 <= length (A (params st)) ->
  exists st',
    tick st = Some st' /\
    updatePopulations (pops st) (params st) = Some (pops st') /\
    history st' = last_n 49 (history st) ++ [history_entry (pops st')] /\
    (exists e, last (history st') = Some e /\
               Entry.A e = pops st' !! 0 /\ Entry.B e = pops st' !! 1 /\
               Entry.C e = pops st' !! 2) /\
    params st' = params st /\ explanation st' = explanation st.
Proof.
  intros Hrows. destruct (tick_returns st Hrows) as (next & Hnext & Htick).
  eexists. split; [exact Htick |]. cbn [pops history params explanation].
  rewrite push_history_keeps_49. repeat split; [done |].
  exists (history_entry next). by rewrite last_snoc.
Qed.

Lemma tick_appends_current_sample_witness :
  exists st',
    tick initial_state = Some st' /\
    updatePopulations (pops initial_state) (params initial_state) = Some (pops st') /\
    history st' = last_n 49 (history initial_state) ++ [history_entry (pops st')] /\
    (exists e, last (history st') = Some e /\
               Entry.A e = pops st' !! 0 /\ Entry.B e = pops st' !! 1 /\
               Entry.C e = pops st' !! 2) /\
    params st' = params initial_state /\ explanation st' = explanation initial_state.
Proof.
  apply (tick_appends_current_sample initial_state). simpl. lia.
Defined.

(** X7: the sampling loop is the engine iterated.  After [n] firings the
    populations in the state are the [n]-fold step of the populations it
    started with (and the loop throws exactly when that iteration does);
    whenever it completes, parameters and explanation are those it started
    with and the history holds [min 50 (old length + n)] entries. *)
Theorem ticks_iterate (n : nat) (st : AppState) :
  pops <$> ticks n st = iterate n (pops st) (params st) /\
  (3 <= length (A (params st)) -> is_Some (ticks n st)) /\
  (forall st', ticks n st = Some st' ->
     params st' = params st /\ explanation st' = explanation st /\
     (length (history st) <= 50 ->
      length (history st') = Nat.min 50 (length (history st) + n))).
Proof.
  revert st. induction n as [|n IH]; intros st.
  - split; [reflexivity |]. split; [by eexists |].
    intros st' [= <-]. repeat split. intros H. lia.
  - cbn [ticks iterate].
    destruct (Nat.lt_ge_cases (length (A (params st))) 3) as [Hlt|Hge].
    { unfold tick. rewrite (updatePopulations_throws (pops st) (params st) Hlt).
      split; [done |]. split; [lia | done]. }
    destruct (tick_returns st Hge) as (next & Hnext & Htick). rewrite Htick, Hnext.
    set (st1 := {| pops := next; history := push_history (history st) next;
                   explanation := explanation st; params := params st |}).
    destruct (IH st1) as (Hpops & Hsome & Hrest). split; [exact Hpops |].
    split; [intros _; by apply Hsome |].
    intros st' Hst'. destruct (Hrest st' Hst') as (-> & -> & Hlen).
    repeat split. intros Hbound. rewrite Hlen.
    + subst st1. cbn [history]. rewrite push_history_keeps_49, length_app, last_n_length.
      cbn [length]. lia.
    + subst st1. cbn [history]. destruct (push_history_window (history st) next) as [_ H].
      exact H.
Qed.

(** * Further properties of the scenario buttons *)

Lemma applyScenario_cases (type : string) (st : AppState) :
  applyScenario type st = Some st \/
  exists rates text,
    In rates preset_rates /\ applyScenario type st = Some (set_scenario rates text st).
Proof.
  unfold applyScenario, preset_rates.
  destruct (String.eqb type "balance"); [right; eexists _, _; split; [| reflexivity]; simpl; auto |].
  destruct (String.eqb type "explosion"); [right; eexists _, _; split; [| reflexivity]; simpl; auto |].
  destruct (String.eqb type "extinction"); [right; eexists _, _; split; [| reflexivity]; simpl; auto |].
  by left.
Qed.

(** X8: no sequence of clicks, known tags or not, ever throws or touches the
    interaction matrix, the time step, the populations or the history; the
    growth rates after it are those before it or one of the three presets. *)
Theorem scenario_sequence_frame (tags : list string) (st : AppState) :
  exists st',
    applyScenarios tags st = Some st' /\
    A (params st') = A (params st) /\
    dt (params st') = dt (params st) /\
    pops st' = pops st /\
    history st' = history st /\
    (r (params st') = r (params st) \/ In (r (params st')) preset_rates).
Proof.
  revert st. induction tags as [|type tags IH]; intros st.
  - exists st. simpl. auto 10.
  - cbn [applyScenarios].
    destruct (applyScenario_cases type st) as [->|(rates & text & Hin & ->)].
    + apply IH.
    + destruct (IH (set_scenario rates text st)) as (st' & -> & HA & Hdt & Hp & Hh & Hr).
      exists st'. cbn [set_scenario params pops history A dt r] in *.
      repeat split; auto. destruct Hr as [-> | Hr]; auto.
Qed.

Lemma applyScenario_overwrites (t1 t2 : string) (st st1 : AppState) :
  In t2 scenario_tags ->
  applyScenario t1 st = Some st1 ->
  applyScenario t2 st1 = applyScenario t2 st.
Proof.
  intros Hin H1.
  destruct (applyScenario_cases t1 st) as [E|(rates & text & _ & E)];
    rewrite E in H1; injection H1 as <-; [done |].
  simpl in Hin. destruct Hin as [<-|[<-|[<-|[]]]]; reflexivity.
Qed.

Lemma applyScenarios_last (tags : list string) (type : string) (st : AppState) :
  In type scenario_tags ->
  applyScenarios (tags ++ [type]) st = applyScenario type st.
Proof.
  intros Hin. revert st. induction tags as [|t1 tags IH]; intros st.
  - cbn [app applyScenarios]. by destruct (applyScenario type st).
  - cbn [app applyScenarios].
    destruct (applyScenario_returns t1 st) as [st1 H1]. rewrite H1, IH.
    by apply (applyScenario_overwrites t1).
Qed.

(** X9: the last known click wins.  After any sequence of clicks followed by
    a click on a known tag, the state is the one that last click alone would
    have produced from the state at the start; in particular a click repeated
    changes nothing more. *)
Theorem last_scenario_wins (tags : list string) (type : string) (st : AppState) :
  In type scenario_tags ->
  applyScenarios (tags ++ [type]) st = applyScenario type st.
Proof. apply applyScenarios_last. Qed.

Lemma last_scenario_wins_witness :
  applyScenarios (["explosion"; "unknown"; "extinction"; "explosion"] ++ ["balance"])
    initial_state
  = applyScenario "balance" initial_state.
Proof.
  apply (last_scenario_wins ["explosion"; "unknown"; "extinction"; "explosion"]
           "balance" initial_state).
  simpl. auto.
Defined.

(** X10: "balance" brings back the parameters the page starts with, from
    whatever the earlier clicks installed, but not the explanation the page
    starts with. *)
Theorem balance_restores_initial_parameters (tags : list string) :
  exists st',
    applyScenarios (tags ++ ["balance"]) initial_state = Some st' /\
    params st' = initial_params /\
    pops st' = pops initial_state /\
    explanation st' <> explanation initial_state.
Proof.
  rewrite applyScenarios_last by (simpl; auto).
  eexists. split; [reflexivity |]. repeat split. discriminate.
Qed.

(** * Further properties of the ensemble *)

Lemma div_mod_succ_3 (n : nat) :
  (S n / 3 = n / 3 /\ S n mod 3 = S (n mod 3) /\ n mod 3 < 2) \/
  (S n / 3 = S (n / 3) /\ S n mod 3 = 0 /\ n mod 3 = 2).
Proof.
  pose proof (Nat.div_mod_eq n 3) as E.
  pose proof (Nat.mod_upper_bound n 3 ltac:(lia)) as B.
  destruct (Nat.lt_ge_cases (n mod 3) 2) as [Hlt|Hge].
  - left. repeat split; [| | done].
    + symmetry. apply (Nat.div_unique (S n) 3 (n / 3) (S (n mod 3))); lia.
    + symmetry. apply (Nat.mod_unique (S n) 3 (n / 3) (S (n mod 3))); lia.
  - right. repeat split; [| | lia].
    + symmetry. apply (Nat.div_unique (S n) 3 (S (n / 3)) 0); lia.
    + symmetry. apply (Nat.mod_unique (S n) 3 (S (n / 3)) 0); lia.
Qed.

Section EnsembleMore.
Variables Math_sin Math_cos Math_acos : float -> float.
Variable Math_random : nat -> float.

Local Abbreviation make := (make_particle Math_sin Math_cos Math_acos Math_random).
Local Abbreviation ensemble := (particles Math_sin Math_cos Math_acos Math_random).

Lemma particles_one_more (n : nat) : ensemble (S n) = ensemble n ++ [make n (3 * n)].
Proof.
  rewrite !particles_map. by rewrite seq_S, map_app.
Qed.

Lemma species_count_one_more (n s : nat) :
  species_count s (ensemble (S n)) =
    species_count s (ensemble n) + (if decide (n mod 3 = s) then 1 else 0).
Proof.
  rewrite particles_one_more, species_count_app. f_equal.
  unfold species_count. rewrite filter_cons, filter_nil.
  change (Particle.species (make n (3 * n))) with (n mod 3).
  by case_decide.
Qed.

Lemma species_count_any (n s : nat) :
  s < 3 ->
  species_count s (ensemble n) = n / 3 + (if s <? n mod 3 then 1 else 0).
Proof.
  intros Hs. induction n as [|n IH]; [reflexivity |].
  rewrite species_count_one_more, IH.
  destruct (div_mod_succ_3 n) as [(-> & -> & Hm)|(-> & -> & Hm)].
  - case_decide; destruct (Nat.ltb_spec s (n mod 3)), (Nat.ltb_spec s (S (n mod 3))); lia.
  - rewrite Hm. case_decide; destruct (Nat.ltb_spec s 2); simpl; lia.
Qed.

End EnsembleMore.

(** X11: round-robin balance for every count.  Whatever the count [n] and the
    random draws, species [s] gets [n / 3] particles, plus one if
    [s < n mod 3]; so the three species never differ by more than one
    particle, and every particle has one of the three species. *)
Theorem ensemble_balance_any_count
    (Math_sin Math_cos Math_acos : float -> float) (Math_random : nat -> float)
    (n s : nat) :
  s < 3 ->
  species_count s (particles Math_sin Math_cos Math_acos Math_random n)
    = n / 3 + (if s <? n mod 3 then 1 else 0) /\
  Forall (fun p => Particle.species p < 3)
         (particles Math_sin Math_cos Math_acos Math_random n).
Proof.
  intros Hs. split; [by apply species_count_any |].
  apply Forall_forall. intros p Hp. apply list_elem_of_lookup in Hp.
  destruct Hp as [i Hi]. rewrite (particles_species _ _ _ _ n i p Hi).
  apply Nat.mod_upper_bound. lia.
Qed.

Lemma ensemble_balance_any_count_witness :
  species_count 1 (particles sample_fn sample_fn sample_fn sample_random 3001)
    = 3001 / 3 + (if 1 <? 3001 mod 3 then 1 else 0) /\
  Forall (fun p => Particle.species p < 3)
         (particles sample_fn sample_fn sample_fn sample_random 3001).
Proof.
  apply (ensemble_balance_any_count sample_fn sample_fn sample_fn sample_random 3001 1).
  lia.
Defined.




(** * Further properties of the frame callback *)

Section FrameMore.
Variable f : Particle.t -> nat -> Transform.

Lemma render_dummy (t : Transform) (i : nat) (st : Object3D * InstancedMesh) :
  fst (render t i st) = object_of t.
Proof. reflexivity. Qed.

Lemma render_matrix_slot (t : Transform) (i : nat) (st : Object3D * InstancedMesh) :
  i < length (instanceMatrix (snd st)) ->
  instanceMatrix (snd (render t i st)) !! i = Some (Float32_store (matrix_of t)).
Proof.
  intros Hm. unfold render.
  destruct (t_color t); simpl; by rewrite list_lookup_insert_eq.
Qed.

Lemma render_color_slot (t : Transform) (i : nat) (st : Object3D * InstancedMesh) :
  i < length (instanceColor (snd st)) ->
  instanceColor (snd (render t i st)) !! i =
    match t_color t with
    | Some c => Some (Some c)
    | None => instanceColor (snd st) !! i
    end.
Proof.
  intros Hc. unfold render.
  destruct (t_color t); simpl; [by rewrite list_lookup_insert_eq | done].
Qed.

Lemma frame_loop_cons (p : Particle.t) (ps : list Particle.t) (i0 : nat)
    (st : Object3D * InstancedMesh) :
  frame_loop f (p :: ps) i0 st = frame_loop f ps (S i0) (render (f p i0) i0 st).
Proof. reflexivity. Qed.

(** Slots from the end of the particle list on are not written. *)
Lemma frame_loop_after (ps : list Particle.t) (i0 j : nat) (st : Object3D * InstancedMesh) :
  i0 + length ps <= j ->
  instanceMatrix (snd (frame_loop f ps i0 st)) !! j = instanceMatrix (snd st) !! j /\
  instanceColor (snd (frame_loop f ps i0 st)) !! j = instanceColor (snd st) !! j.
Proof.
  revert i0 st. induction ps as [|p ps IH]; intros i0 st Hj; [done |].
  rewrite frame_loop_cons. cbn [length] in Hj.
  destruct (IH (S i0) (render (f p i0) i0 st)) as [-> ->]; [lia |].
  apply render_other. lia.
Qed.

Lemma frame_loop_matrix (ps : list Particle.t) (i0 j : nat) (p : Particle.t)
    (st : Object3D * InstancedMesh) :
  ps !! j = Some p ->
  i0 + j < length (instanceMatrix (snd st)) ->
  instanceMatrix (snd (frame_loop f ps i0 st)) !! (i0 + j) = Some (Float32_store (matrix_of (f p (i0 + j)))).
Proof.
  revert i0 j st. induction ps as [|q ps IH]; intros i0 j st Hp Hm; [done |].
  rewrite frame_loop_cons. destruct j as [|j].
  - injection Hp as ->. rewrite Nat.add_0_r in *.
    destruct (frame_loop_before f ps (S i0) i0 (render (f p i0) i0 st)) as [-> _]; [lia |].
    by apply render_matrix_slot.
  - replace (i0 + S j) with (S i0 + j) in * by lia.
    apply IH; [done |]. by destruct (render_lengths (f q i0) i0 st) as [-> _].
Qed.

Lemma frame_loop_color (ps : list Particle.t) (i0 j : nat) (p : Particle.t)
    (st : Object3D * InstancedMesh) :
  ps !! j = Some p ->
  i0 + j < length (instanceColor (snd st)) ->
  instanceColor (snd (frame_loop f ps i0 st)) !! (i0 + j) =
    match t_color (f p (i0 + j)) with
    | Some c => Some (Some c)
    | None => instanceColor (snd st) !! (i0 + j)
    end.
Proof.
  revert i0 j st. induction ps as [|q ps IH]; intros i0 j st Hp Hc; [done |].
  rewrite frame_loop_cons. destruct j as [|j].
  - injection Hp as ->. rewrite Nat.add_0_r in *.
    destruct (frame_loop_before f ps (S i0) i0 (render (f p i0) i0 st)) as [_ ->]; [lia |].
    by apply render_color_slot.
  - replace (i0 + S j) with (S i0 + j) in * by lia.
    rewrite IH; [| done | by destruct (render_lengths (f q i0) i0 st) as [_ ->]].
    destruct (render_other (f q i0) i0 (S i0 + j) st) as [_ ->]; [lia | done].
Qed.

Lemma frame_matrix (ps : list Particle.t) (i : nat) (p : Particle.t)
    (st : Object3D * InstancedMesh) :
  ps !! i = Some p ->
  i < length (instanceMatrix (snd st)) ->
  instanceMatrix (snd (frame_loop f ps 0 st)) !! i = Some (Float32_store (matrix_of (f p i))).
Proof. intros Hp Hm. by apply (frame_loop_matrix ps 0 i p st). Qed.

Lemma frame_color (ps : list Particle.t) (i : nat) (p : Particle.t)
    (st : Object3D * InstancedMesh) :
  ps !! i = Some p ->
  i < length (instanceColor (snd st)) ->
  instanceColor (snd (frame_loop f ps 0 st)) !! i =
    match t_color (f p i) with
    | Some c => Some (Some c)
    | None => instanceColor (snd st) !! i
    end.
Proof. intros Hp Hc. by apply (frame_loop_color ps 0 i p st). Qed.

(** After a frame over at least one particle, [dummy] holds the transform of
    the last one, whatever it held before. *)
Lemma frame_loop_dummy (ps : list Particle.t) (i0 : nat) (st st2 : Object3D * InstancedMesh) :
  ps <> [] -> fst (frame_loop f ps i0 st) = fst (frame_loop f ps i0 st2).
Proof.
  revert i0 st st2. induction ps as [|p ps IH]; intros i0 st st2 Hne; [done |].
  rewrite !frame_loop_cons. destruct ps as [|q ps].
  - reflexivity.
  - by apply IH.
Qed.

Lemma frame_loop_idempotent (ps : list Particle.t) (st : Object3D * InstancedMesh) :
  frame_loop f ps 0 (frame_loop f ps 0 st) = frame_loop f ps 0 st.
Proof.
  destruct ps as [|p0 ps0] eqn:Eps; [reflexivity |]. rewrite <- Eps.
  assert (Hne : ps <> []) by (rewrite Eps; discriminate).
  set (st1 := frame_loop f ps 0 st).
  destruct (frame_loop_lengths f ps 0 st) as [Lm Lc]. fold st1 in Lm, Lc.
  assert (Hd : fst (frame_loop f ps 0 st1) = fst st1) by (by apply frame_loop_dummy).
  assert (Hm : instanceMatrix (snd (frame_loop f ps 0 st1)) = instanceMatrix (snd st1)).
  { apply list_eq. intros i. destruct (Nat.lt_ge_cases i (length ps)) as [Hi|Hi].
    - destruct (lookup_lt_is_Some_2 ps i Hi) as [p Hp].
      destruct (Nat.lt_ge_cases i (length (instanceMatrix (snd st)))) as [Hr|Hr].
      + rewrite (frame_matrix ps i p st1 Hp) by lia.
        unfold st1. by rewrite (frame_matrix ps i p st Hp) by lia.
      + rewrite !lookup_ge_None_2; [done | lia |].
        destruct (frame_loop_lengths f ps 0 st1) as [-> _]. lia.
    - by destruct (frame_loop_after ps 0 i st1) as [-> _]. }
  assert (Hc : instanceColor (snd (frame_loop f ps 0 st1)) = instanceColor (snd st1)).
  { apply list_eq. intros i. destruct (Nat.lt_ge_cases i (length ps)) as [Hi|Hi].
    - destruct (lookup_lt_is_Some_2 ps i Hi) as [p Hp].
      destruct (Nat.lt_ge_cases i (length (instanceColor (snd st)))) as [Hr|Hr].
      + rewrite (frame_color ps i p st1 Hp) by lia.
        unfold st1. rewrite (frame_color ps i p st Hp) by lia.
        by destruct (t_color (f p i)).
      + rewrite !lookup_ge_None_2; [done | lia |].
        destruct (frame_loop_lengths f ps 0 st1) as [_ ->]. lia.
    - by destruct (frame_loop_after ps 0 i st1) as [_ ->]. }
  destruct (frame_loop f ps 0 st1) as [d2 [m2 c2]], st1 as [d1 [m1 c1]].
  simpl in Hd, Hm, Hc. by subst.
Qed.

Lemma frame_loop_untouched (ps : list Particle.t) (dummy : Object3D) (mesh : InstancedMesh) :
  untouched_beyond (length ps) mesh (snd (frame_loop f ps 0 (dummy, mesh))).
Proof.
  destruct (frame_loop_lengths f ps 0 (dummy, mesh)) as [Lm Lc].
  repeat split; try done; by apply (frame_loop_after ps 0 i (dummy, mesh)).
Qed.

End FrameMore.

(** X13: a frame writes the slots of its particles and nothing else.  In both
    versions the mesh keeps its size and every slot from index
    [particles.length] on keeps its matrix and colour; and when the mesh is
    not there yet the callback returns without touching [dummy]. *)
Theorem frame_leaves_other_slots
    (Math_sin Math_cos : float -> float) (time : float) (clock : nat -> float)
    (populations : list float) (ps : list Particle.t) (dummy : Object3D)
    (mesh : InstancedMesh) :
  (exists mesh',
     snd (useFrame_lab Math_sin Math_cos time populations ps dummy (Some mesh)) = Some mesh' /\
     untouched_beyond (length ps) mesh mesh') /\
  (exists mesh',
     snd (useFrame_page Math_sin Math_cos clock populations ps dummy (Some mesh)) = Some mesh' /\
     untouched_beyond (length ps) mesh mesh') /\
  useFrame_lab Math_sin Math_cos time populations ps dummy None = (dummy, None) /\
  useFrame_page Math_sin Math_cos clock populations ps dummy None = (dummy, None).
Proof.
  repeat split; try (eexists; split; [reflexivity |]); try reflexivity;
    apply frame_loop_untouched.
Qed.

(** X14: the frame callback keeps nothing from one frame to the next.  Run
    again with the same time (or clock readings), populations and particles
    on the [dummy] and mesh it has just left, either version leaves both
    exactly as they are. *)
Theorem frame_is_idempotent
    (Math_sin Math_cos : float -> float) (time : float) (clock : nat -> float)
    (populations : list float) (ps : list Particle.t) (dummy : Object3D)
    (meshRef : option InstancedMesh) :
  useFrame_lab Math_sin Math_cos time populations ps
    (fst (useFrame_lab Math_sin Math_cos time populations ps dummy meshRef))
    (snd (useFrame_lab Math_sin Math_cos time populations ps dummy meshRef))
  = useFrame_lab Math_sin Math_cos time populations ps dummy meshRef /\
  useFrame_page Math_sin Math_cos clock populations ps
    (fst (useFrame_page Math_sin Math_cos clock populations ps dummy meshRef))
    (snd (useFrame_page Math_sin Math_cos clock populations ps dummy meshRef))
  = useFrame_page Math_sin Math_cos clock populations ps dummy meshRef.
Proof.
  destruct meshRef as [mesh|]; [| by split].
  unfold useFrame_lab, useFrame_page. cbn [fst snd].
  split.
  - set (g := fun (p : Particle.t) (_ : nat) =>
                computeTransform_lab Math_sin Math_cos p populations time).
    rewrite <- surjective_pairing. by rewrite (frame_loop_idempotent g).
  - set (g := fun (p : Particle.t) (i : nat) =>
                computeTransform_page Math_sin Math_cos p populations (clock i)).
    rewrite <- surjective_pairing. by rewrite (frame_loop_idempotent g).
Qed.

(** X15: what a frame draws for the generated ensemble.  For an ensemble of
    [n] particles and a mesh with at least [n] slots, slot [i] ends up with
    the colour at index [i mod 3] of the table (red, green, blue in turn) and
    a uniform scale that is [populations[i mod 3] * 0.4] (lab version) or
    [* 0.5] ([page.tsx]) rounded to binary32 by the store; the two versions
    always agree on the colour. *)
Theorem frame_draws_species_in_turn
    (Math_sin Math_cos Math_acos : float -> float) (Math_random : nat -> float)
    (n i : nat) (time : float) (clock : nat -> float) (populations : list float)
    (dummy : Object3D) (mesh : InstancedMesh) :
  i < n ->
  n <= length (instanceMatrix mesh) ->
  n <= length (instanceColor mesh) ->
  exists hex m m',
    colors !! (i mod 3) = Some hex /\
    slot (useFrame_lab Math_sin Math_cos time populations
            (particles Math_sin Math_cos Math_acos Math_random n) dummy (Some mesh)) i
      = Some (m, Some (Hex hex)) /\
    m_scale m = (Math_fround (js_get populations (i mod 3) * 0.4)%float,
                 Math_fround (js_get populations (i mod 3) * 0.4)%float,
                 Math_fround (js_get populations (i mod 3) * 0.4)%float) /\
    slot (useFrame_page Math_sin Math_cos clock populations
            (particles Math_sin Math_cos Math_acos Math_random n) dummy (Some mesh)) i
      = Some (m', Some (Hex hex)) /\
    m_scale m' = (Math_fround (js_get populations (i mod 3) * 0.5)%float,
                  Math_fround (js_get populations (i mod 3) * 0.5)%float,
                  Math_fround (js_get populations (i mod 3) * 0.5)%float).
Proof.
  intros Hi Hm Hc.
  set (ps := particles Math_sin Math_cos Math_acos Math_random n).
  destruct (lookup_lt_is_Some_2 ps i) as [p Hp].
  { unfold ps. by rewrite particles_length. }
  pose proof (particles_species _ _ _ _ n i p Hp) as Hs.
  destruct (color_table (i mod 3)) as (hex & Hhex & Hlab & Hpage).
  { apply Nat.mod_upper_bound. lia. }
  exists hex. eexists _, _. split; [exact Hhex |].
  split; [| split; [| split]].
  - unfold useFrame_lab.
    apply (frame_slot (fun p _ => computeTransform_lab Math_sin Math_cos p populations time));
      [exact Hp | | lia | lia].
    cbn [computeTransform_lab t_color]. by rewrite Hs.
  - cbn [Float32_store Vector3_fround matrix_of m_scale computeTransform_lab t_scale fst snd].
    by rewrite Hs.
  - unfold useFrame_page.
    apply (frame_slot (fun p i => computeTransform_page Math_sin Math_cos p populations (clock i)));
      [exact Hp | | lia | lia].
    cbn [computeTransform_page t_color]. by rewrite Hs.
  - cbn [Float32_store Vector3_fround matrix_of m_scale computeTransform_page t_scale fst snd].
    by rewrite Hs.
Qed.

Lemma frame_draws_species_in_turn_witness :
  exists hex m m',
    colors !! (4 mod 3) = Some hex /\
    slot (useFrame_lab sample_fn sample_cos 2.5 [1.0; 2.0; 3.0]%float
            (particles sample_fn sample_cos sample_acos demo_random 6)
            used_object (Some (painted_mesh 8))) 4
      = Some (m, Some (Hex hex)) /\
    m_scale m = (Math_fround (js_get [1.0; 2.0; 3.0] (4 mod 3) * 0.4)%float,
                 Math_fround (js_get [1.0; 2.0; 3.0] (4 mod 3) * 0.4)%float,
                 Math_fround (js_get [1.0; 2.0; 3.0] (4 mod 3) * 0.4)%float) /\
    slot (useFrame_page sample_fn sample_cos demo_clock [1.0; 2.0; 3.0]%float
            (particles sample_fn sample_cos sample_acos demo_random 6)
            used_object (Some (painted_mesh 8))) 4
      = Some (m', Some (Hex hex)) /\
    m_scale m' = (Math_fround (js_get [1.0; 2.0; 3.0] (4 mod 3) * 0.5)%float,
                  Math_fround (js_get [1.0; 2.0; 3.0] (4 mod 3) * 0.5)%float,
                  Math_fround (js_get [1.0; 2.0; 3.0] (4 mod 3) * 0.5)%float).
Proof.
  apply (frame_draws_species_in_turn sample_fn sample_cos sample_acos demo_random 6 4
           2.5 demo_clock [1.0; 2.0; 3.0]%float used_object (painted_mesh 8)).
  - lia.
  - simpl. lia.
  - simpl. lia.
Defined.

(** * The direction of a step *)

(** X16: a species whose net rate, as the step computes it in binary64, is
    not positive does not grow, whatever the signs of the parameters.  If
    [r[i] + sum_j A[i][j] * pops[j]] comes out zero, negative or negative
    infinite, the abundance is finite and at least 0.1 and the time step is
    positive and finite, then the new abundance is at most the old one, at
    least 0.1 and finite. *)
Theorem species_without_net_growth_does_not_grow
    (params : GLVParams float) (pops row : list float) (i : nat) (p : float) :
  i < 3 ->
  3 <= length (A params) ->
  A params !! i = Some row ->
  pops !! i = Some p ->
  f_le 0.1 p -> is_finite p = true ->
  f_lt 0 (dt params) -> is_finite (dt params) = true ->
  f_le (js_get (r params) i + interaction_sum row pops) 0 ->
  exists out x,
    updatePopulations pops params = Some out /\ out !! i = Some x /\
    f_le x p /\ f_le 0.1 x /\ is_finite x = true.
Proof.
  intros Hi Hrows Hrow Hp Hfloor Hfin Hdt Hdtfin Hnet.
  destruct (three_rows params Hrows) as (row0 & row1 & row2 & H0 & H1 & H2).
  assert (Hstep : f_le (species_step pops params row i) p /\
                  f_le 0.1 (species_step pops params row i) /\
                  posfin (species_step pops params row i)).
  { unfold species_step, euler_candidate.
    rewrite (js_get_lookup pops i p Hp). cbn [Math_max lit_0_1 add mul binary64].
    pose proof (posfin_of_ge_floor p Hfloor Hfin) as Pp.
    apply clamped_sum_le; [done | done |].
    apply mul_nonpos_posfin; [| by apply posfin_of_lt_zero].
    apply mul_posfin_nonpos; [done | by apply nonpos_of_le_zero]. }
  destruct Hstep as (L & G & P).
  eexists. exists (species_step pops params row i).
  split; [by apply updatePopulations_rows |].
  split; [| split; [done | split; [done | by apply is_finite_of_posfin]]].
  destruct i as [|[|[|i]]]; try lia.
  - replace row with row0 by congruence. apply three_writes_0.
  - replace row with row1 by congruence. apply three_writes_1.
  - replace row with row2 by congruence. apply three_writes_2.
Qed.

Lemma species_without_net_growth_does_not_grow_witness :
  exists out x,
    updatePopulations [1.0; 1.0; 1.0]%float initial_params = Some out /\ out !! 1 = Some x /\
    f_le x 1.0 /\ f_le 0.1 x /\ is_finite x = true.
Proof.
  apply (species_without_net_growth_does_not_grow initial_params [1.0; 1.0; 1.0]%float
           [-0.5; -0.1; 0.0]%float 1 1.0%float);
    try reflexivity; simpl; lia.
Defined.
